(** * forum_dump: a shallow embedding of the config-driven forum thread dumper

    Source: [scripts/scrapers/forum_scraper/forum_dump.py].

    The embedding follows the Python text function by function.  Python
    [int] is [Z]; [str] is [string] (the model reads strings as ASCII
    text); a [list] is a [list]; the [seen] set of the discovery loop is a
    [gset string]; [Optional[T]] is [option T]; an exception that leaves a
    function is the [Raise] branch of [result].

    The browser driver, the HTML query engine and the [datetime] library
    are collaborators of the program, not part of it.  They enter as the
    fields of the record [World]: the theorems hold for every behaviour
    of the collaborators, and the closed examples instantiate them with
    small concrete pages. *)

From stdpp Require Import base list gmap sets strings.
From Stdlib Require Import ZArith Lia Ascii String.

Open Scope string_scope.
Open Scope Z_scope.
Open Scope list_scope.

(** ** Python values and built-ins used by the program *)

Module Py.

(** An exception object: its class name and [str(err)]. *)
Record exn := Exn { exn_class : string; exn_message : string }.

(** The outcome of a call that may raise. *)
Inductive result (A : Type) : Type :=
| Ok (a : A)
| Raise (e : exn).
Arguments Ok {A} a.
Arguments Raise {A} e.

(** Truthiness of the values the program tests with [if x] / [x or y]. *)
Definition truthy_int (n : Z) : bool := negb (n =? 0).
Definition truthy_str (s : string) : bool :=
  match s with EmptyString => false | String _ _ => true end.

(** [a or b] on integers. *)
Definition or_int (a b : Z) : Z := if truthy_int a then a else b.

(** [len(l)]. *)
Definition len {A} (l : list A) : Z := Z.of_nat (List.length l).

(** [l[:n]] for a list: a negative bound counts from the end. *)
Definition slice_to {A} (l : list A) (n : Z) : list A :=
  if n <? 0 then take (Z.to_nat (len l + n)) l else take (Z.to_nat n) l.

(** [a % b]: the sign follows the divisor, and a zero divisor raises. *)
Definition mod_ (a b : Z) : result Z :=
  if b =? 0 then Raise (Exn "ZeroDivisionError" "integer modulo by zero")
  else Ok (a mod b).

(** *** Characters *)

Definition code (c : ascii) : nat := nat_of_ascii c.

Definition is_digit (c : ascii) : bool :=
  (48 <=? code c)%nat && (code c <=? 57)%nat.

Definition is_comma (c : ascii) : bool := (code c =? 44)%nat.
Definition is_newline (c : ascii) : bool := (code c =? 10)%nat.
Definition is_qmark (c : ascii) : bool := (code c =? 63)%nat.
Definition is_dash (c : ascii) : bool := (code c =? 45)%nat.
Definition is_slash (c : ascii) : bool := (code c =? 47)%nat.

(** [str.isspace] on ASCII: TAB, LF, VT, FF, CR, the separators
    0x1c-0x1f and the space. *)
Definition is_space (c : ascii) : bool :=
  ((9 <=? code c)%nat && (code c <=? 13)%nat)
  || ((28 <=? code c)%nat && (code c <=? 32)%nat).

Definition lower_char (c : ascii) : ascii :=
  if (65 <=? code c)%nat && (code c <=? 90)%nat
  then ascii_of_nat (code c + 32) else c.

(** *** Strings *)

Fixpoint rev_onto (s acc : string) : string :=
  match s with
  | EmptyString => acc
  | String c r => rev_onto r (String c acc)
  end.

Definition rev (s : string) : string := rev_onto s EmptyString.

Fixpoint drop_while (p : ascii -> bool) (s : string) : string :=
  match s with
  | EmptyString => EmptyString
  | String c r => if p c then drop_while p r else s
  end.

Fixpoint take_while (p : ascii -> bool) (s : string) : string :=
  match s with
  | EmptyString => EmptyString
  | String c r => if p c then String c (take_while p r) else EmptyString
  end.

Fixpoint all_chars (p : ascii -> bool) (s : string) : bool :=
  match s with
  | EmptyString => true
  | String c r => p c && all_chars p r
  end.

(** [s.startswith(p)]. *)
Definition startswith (s p : string) : bool := String.prefix p s.

(** [s.endswith(p)]. *)
Definition endswith (s p : string) : bool := String.prefix (rev p) (rev s).

(** [s.lstrip] of slashes. *)
Definition lstrip_slash (s : string) : string := drop_while is_slash s.

(** [s.strip()]. *)
Definition strip (s : string) : string :=
  rev (drop_while is_space (rev (drop_while is_space s))).

(** [s.lower()]. *)
Fixpoint lower (s : string) : string :=
  match s with
  | EmptyString => EmptyString
  | String c r => String (lower_char c) (lower r)
  end.

(** [needle in s]. *)
Fixpoint contains (s needle : string) : bool :=
  String.prefix needle s ||
  match s with
  | EmptyString => false
  | String _ r => contains r needle
  end.

(** [sep.join(l)]. *)
Definition join (sep : string) (l : list string) : string := String.concat sep l.

(** [s.split(sep)[0]]: the text before the first occurrence of a
    non-empty separator, the whole string when there is none. *)
Fixpoint split_head (s sep : string) : string :=
  match s with
  | EmptyString => EmptyString
  | String c r => if String.prefix sep s then EmptyString else String c (split_head r sep)
  end.

(** [s.replace] of every comma by the empty string. *)
Fixpoint remove_commas (s : string) : string :=
  match s with
  | EmptyString => EmptyString
  | String c r => if is_comma c then remove_commas r else String c (remove_commas r)
  end.

(** [int(s)] for a string of decimal digits. *)
Fixpoint int_onto (acc : Z) (s : string) : Z :=
  match s with
  | EmptyString => acc
  | String c r => int_onto (10 * acc + Z.of_nat (code c - 48)) r
  end.

Definition int (s : string) : Z := int_onto 0 s.

(** *** The regular expressions of the program, each as the function
    [re.search] / [re.sub] computes for that pattern *)

(** [re.search] for the pattern of [_extract_stat], one digit followed
    by any run of digits and commas: group 1 of the leftmost match. *)
Fixpoint search_grouped_number (s : string) : option string :=
  match s with
  | EmptyString => None
  | String c r =>
      if is_digit c
      then Some (String c (take_while (fun d => is_digit d || is_comma d) r))
      else search_grouped_number r
  end.

(** [re.search] for a run of one or more digits: group 1 of the
    leftmost match. *)
Fixpoint search_number (s : string) : option string :=
  match s with
  | EmptyString => None
  | String c r =>
      if is_digit c then Some (String c (take_while is_digit r))
      else search_number r
  end.

(** Where [.*$] can match: the rest of the text holds no line feed, or
    exactly one and it is the last character ([$] also matches just
    before a final line feed).  The result is what is left after the
    match. *)
Fixpoint dollar_rest (s : string) : option string :=
  match s with
  | EmptyString => Some EmptyString
  | String c r =>
      if is_newline c
      then match r with EmptyString => Some s | String _ _ => None end
      else dollar_rest r
  end.

(** [re.sub] deleting the pattern: a question mark, any characters but
    line feeds, then [$]. *)
Fixpoint sub_query (s : string) : string :=
  match s with
  | EmptyString => EmptyString
  | String c r =>
      if is_qmark c
      then match dollar_rest r with
           | Some rest => rest
           | None => String c (sub_query r)
           end
      else String c (sub_query r)
  end.

(** The text [$] looks back from: the string without one final line feed. *)
Definition before_dollar (s : string) : string :=
  match rev s with
  | String c r => if is_newline c then rev r else s
  | EmptyString => s
  end.

(** [s] ends in a dash followed by at least three digits. *)
Definition ends_in_id (s : string) : bool :=
  let r := rev s in
  (3 <=? String.length (take_while is_digit r))%nat
  && match drop_while is_digit r with
     | String c _ => is_dash c
     | EmptyString => false
     end.

(** [re.search] for a dash, three or more digits, then [$], as a truth
    value. *)
Definition search_trailing_id (s : string) : bool := ends_in_id (before_dollar s).

(** What [$] leaves behind it: the final line feed, if any. *)
Definition after_dollar (s : string) : string :=
  match rev s with
  | String c _ => if is_newline c then String c EmptyString else EmptyString
  | EmptyString => EmptyString
  end.

(** [s] without its last [n] characters. *)
Definition drop_end (n : nat) (s : string) : string :=
  rev (string_of_list_ascii (drop n (list_ascii_of_string (rev s)))).

(** [re.sub] deleting one of several alternatives anchored by [$], for
    non-empty alternatives none of which ends another: the alternative
    that ends the text before [$] is removed. *)
Definition sub_suffix (alts : list string) (s : string) : string :=
  match List.find (fun a => endswith (before_dollar s) a) alts with
  | Some a => drop_end (String.length a) (before_dollar s) +:+ after_dollar s
  | None => s
  end.

End Py.


(** ** The collaborators: parsed documents and dates *)

Module Dom.
Import Py.

(** An element of a parsed page, seen through the queries the program
    makes: its attributes, the text nodes below it in document order,
    and, for a CSS selector, the matching descendants in document
    order. *)
#[local] Unset Elimination Schemes.
Inductive Element : Type :=
| mkElement (attrs : list (string * string)) (strings : list string)
            (matches : string -> list Element).
#[local] Set Elimination Schemes.

Definition attrs (e : Element) : list (string * string) :=
  match e with mkElement a _ _ => a end.
Definition strings (e : Element) : list string :=
  match e with mkElement _ s _ => s end.

(** [el.select(selector)]. *)
Definition select (e : Element) (selector : string) : list Element :=
  match e with mkElement _ _ m => m selector end.

(** [el.select_one(selector)]: the first match or [None]. *)
Definition select_one (e : Element) (selector : string) : option Element :=
  head (select e selector).

(** [el.get(name)]. *)
Fixpoint lookup_attr (l : list (string * string)) (name : string) : option string :=
  match l with
  | [] => None
  | (k, v) :: r => if String.eqb k name then Some v else lookup_attr r name
  end.

Definition get (e : Element) (name : string) : option string :=
  lookup_attr (attrs e) name.

(** [el.get(name)] used as a condition, and its value then. *)
Definition get_truthy (e : Element) (name : string) : option string :=
  match get e name with
  | Some v => if truthy_str v then Some v else None
  | None => None
  end.

(** The strings [get_text(strip=True)] joins: every text node stripped,
    the empty ones left out. *)
Definition stripped_strings (e : Element) : list string :=
  List.filter truthy_str (List.map strip (strings e)).

(** [el.get_text(strip=True)]. *)
Definition get_text (e : Element) : string := join EmptyString (stripped_strings e).

(** [el.get_text(separator=LF, strip=True)]. *)
Definition get_text_lines (e : Element) : string :=
  join (String (ascii_of_nat 10) EmptyString) (stripped_strings e).

(** A parsed page: the document and what [soup.find] gives for the
    title tag. *)
Record Soup := { root : Element; find_title : option Element }.

End Dom.

Module Datetime.
Import Py.

(** A [datetime]: its wall-clock reading in seconds, and the offset from
    UTC when it is timezone-aware ([None] for a naive value). *)
Record datetime := { wall : Z; utcoffset : option Z }.

(** [a >= b]: two naive values compare by wall clock, two aware ones by
    instant, and a naive one against an aware one raises. *)
Definition ge (a b : datetime) : result bool :=
  match utcoffset a, utcoffset b with
  | None, None => Ok (wall b <=? wall a)
  | Some oa, Some ob => Ok (wall b - ob <=? wall a - oa)
  | _, _ => Raise (Exn "TypeError" "can't compare offset-naive and offset-aware datetimes")
  end.

End Datetime.

(** ** The data model of the dumper *)

Module Model.
Import Py Dom Datetime.

(** A selector entry of the forum configuration: one selector or an
    ordered list of selectors. *)
Inductive SelectorConfig :=
| One (selector : string)
| Many (selectors : list string).

(** The fields of [ForumDumper] the extraction and the run read.  A
    selector that the configuration file leaves out is [None]. *)
Record Config := {
  thread_base : string;
  sel_title : option SelectorConfig;
  sel_author : option SelectorConfig;
  sel_date : option string;
  sel_description : option SelectorConfig;
  sel_tags : option string;
  sel_status_labels : option string;
  sel_reply_container : option string;
  sel_reply_body : option string;
  sel_reply_author : option string;
  sel_accepted_marker : option SelectorConfig;
  resolved_terms : list string;
  unresolved_terms : list string;
  max_stale_rounds : Z;
  checkpoint_every : Z;
  max_pages : option Z;
  test_limit : option Z;
  since : option string
}.

(** A reply dictionary of [_extract_replies]. *)
Record Reply := {
  r_author : string;
  r_date : string;
  r_text : string;
  r_is_accepted : bool;
  r_likes : Z
}.

(** The thread dictionary built by the [try] branch of [extract_thread]. *)
Record ThreadData := {
  t_url : string;
  t_title : string;
  t_author : string;
  t_date_posted : string;
  t_description : string;
  t_tags : list string;
  t_views : Z;
  t_replies_count : Z;
  t_likes : Z;
  t_status : string;
  t_accepted_answer : option Reply;
  t_comments : list Reply;
  t_scraped_at : string
}.

(** What [extract_thread] returns: the full dictionary, or the one built
    by the [except] branch. *)
Inductive Thread :=
| Extracted (d : ThreadData)
| Failed (url error scraped_at : string).

(** The keys of the returned dictionary, in insertion order. *)
Definition keys (t : Thread) : list string :=
  match t with
  | Extracted _ =>
      ["url"; "title"; "author"; "date_posted"; "description"; "tags"; "views";
       "replies_count"; "likes"; "status"; "accepted_answer"; "comments"; "scraped_at"]
  | Failed _ _ _ => ["url"; "error"; "scraped_at"]
  end.

(** [thread.get] for the two string keys [run] reads. *)
Definition get_error (t : Thread) : option string :=
  match t with
  | Extracted _ => None
  | Failed _ e _ => Some e
  end.

Definition get_date_posted (t : Thread) : option string :=
  match t with
  | Extracted d => Some (t_date_posted d)
  | Failed _ _ _ => None
  end.

Definition thread_url (t : Thread) : string :=
  match t with
  | Extracted d => t_url d
  | Failed u _ _ => u
  end.

(** The two updates the reply loop of [extract_thread] makes. *)
Definition set_accepted_answer (d : ThreadData) (r : Reply) : ThreadData :=
  {| t_url := t_url d; t_title := t_title d; t_author := t_author d;
     t_date_posted := t_date_posted d; t_description := t_description d;
     t_tags := t_tags d; t_views := t_views d;
     t_replies_count := t_replies_count d; t_likes := t_likes d;
     t_status := t_status d; t_accepted_answer := Some r;
     t_comments := t_comments d; t_scraped_at := t_scraped_at d |}.

Definition append_comment (d : ThreadData) (r : Reply) : ThreadData :=
  {| t_url := t_url d; t_title := t_title d; t_author := t_author d;
     t_date_posted := t_date_posted d; t_description := t_description d;
     t_tags := t_tags d; t_views := t_views d;
     t_replies_count := t_replies_count d; t_likes := t_likes d;
     t_status := t_status d; t_accepted_answer := t_accepted_answer d;
     t_comments := t_comments d ++ [r]; t_scraped_at := t_scraped_at d |}.

Definition set_replies_count (d : ThreadData) (n : Z) : ThreadData :=
  {| t_url := t_url d; t_title := t_title d; t_author := t_author d;
     t_date_posted := t_date_posted d; t_description := t_description d;
     t_tags := t_tags d; t_views := t_views d;
     t_replies_count := n; t_likes := t_likes d;
     t_status := t_status d; t_accepted_answer := t_accepted_answer d;
     t_comments := t_comments d; t_scraped_at := t_scraped_at d |}.

(** The collaborators of the program.

    The [datetime] library: [lib_strptime] and [lib_fromisoformat] give
    [None] where Python raises [ValueError]; [lib_strftime] is the call
    with the one format the program prints dates in.

    The browser: [Page] is a state of the listing page; [listing_links]
    gives the [href]s of the anchors that [find_all] returns for the
    thread URL pattern, in document order; [load_more] is the attempt to
    find, scroll to and click the load-more control, [None] when any
    step of it raises.  [open_thread] is navigating to a thread URL and
    parsing the page, [Raise] when the [try] block of [extract_thread]
    raises an exception of class [Exception], which its [except] clause
    catches; [now] is the clock read while that URL is handled. *)
Record World := {
  lib_strptime : string -> string -> option datetime;
  lib_fromisoformat : string -> option datetime;
  lib_strftime : datetime -> string;
  Page : Type;
  listing_links : Page -> list string;
  load_more : Page -> option Page;
  open_thread : string -> result Soup;
  now : string -> datetime
}.

End Model.

(** ** The program *)

Module ForumDumper.
Import Py Dom Datetime Model.

Section Dumper.

Variable world : World.
Variable self : Config.

(** The double quote of the attribute selectors. *)
Definition dq : string := String (ascii_of_nat 34) EmptyString.

(** *** [parse_date] *)

Definition date_formats : list string :=
  ["%Y-%m-%d"; "%Y-%m-%d %H:%M:%S"; "%Y/%m/%d"; "%m/%d/%Y"].

Fixpoint try_formats (raw : string) (formats : list string) : option datetime :=
  match formats with
  | [] => None
  | fmt :: rest =>
      match lib_strptime world raw fmt with
      | Some d => Some d
      | None => try_formats raw rest
      end
  end.

(** [raw.replace] of every [Z] by [+00:00]. *)
Fixpoint replace_Z (s : string) : string :=
  match s with
  | EmptyString => EmptyString
  | String c r =>
      if (code c =? 90)%nat then "+00:00" +:+ replace_Z r else String c (replace_Z r)
  end.

Definition parse_date (value : option string) : option datetime :=
  match value with
  | None => None
  | Some v =>
      if negb (truthy_str v) then None
      else
        let raw := strip v in
        if negb (truthy_str raw) then None
        else match try_formats raw date_formats with
             | Some d => Some d
             | None => lib_fromisoformat world (replace_Z raw)
             end
  end.

Definition since_dt : option datetime := parse_date (since self).

(** [parsed.strftime(...) if parsed else dt]. *)
Definition normalize_date (dt : string) : string :=
  match parse_date (Some dt) with
  | Some parsed => lib_strftime world parsed
  | None => dt
  end.

(** *** The field extractors *)

(** [selector_config if isinstance(selector_config, list) else
    [selector_config]]; an absent entry is the one-element list holding
    [None]. *)
Definition as_list (selector_config : option SelectorConfig) : list (option string) :=
  match selector_config with
  | None => [None]
  | Some (One s) => [Some s]
  | Some (Many l) => List.map Some l
  end.

Fixpoint select_text_loop (soup : Element) (selectors : list (option string)) : string :=
  match selectors with
  | [] => EmptyString
  | selector :: rest =>
      match selector with
      | None => select_text_loop soup rest
      | Some s =>
          if negb (truthy_str s) then select_text_loop soup rest
          else match select_one soup s with
               | Some el =>
                   let text := get_text el in
                   if truthy_str text then text else select_text_loop soup rest
               | None => select_text_loop soup rest
               end
      end
  end.

Definition _select_text (soup : Soup) (selector_config : option SelectorConfig) : string :=
  select_text_loop (root soup) (as_list selector_config).

Definition _extract_title (soup : Soup) : string :=
  let title := _select_text soup (sel_title self) in
  if truthy_str title then title
  else match find_title soup with
       | Some title_tag => strip (split_head (get_text title_tag) " | ")
       | None => EmptyString
       end.

(** Truthiness of a configured selector entry. *)
Definition truthy_config (c : option SelectorConfig) : bool :=
  match c with
  | None => false
  | Some (One s) => truthy_str s
  | Some (Many l) => match l with [] => false | _ :: _ => true end
  end.

Definition _extract_author (soup : Soup) : string :=
  let author :=
    if truthy_config (sel_author self) then _select_text soup (sel_author self)
    else EmptyString in
  if truthy_str author then author
  else match select_one (root soup) ".author-info" with
       | Some fallback => get_text fallback
       | None => EmptyString
       end.

(** [el and el.get("datetime")], then the normalized date. *)
Definition dated (el : option Element) : option string :=
  match el with
  | Some e => option_map normalize_date (get_truthy e "datetime")
  | None => None
  end.

Definition _extract_post_date (soup : Soup) : string :=
  let date_selector := default "time[datetime]" (sel_date self) in
  match dated (select_one (root soup) date_selector) with
  | Some d => d
  | None =>
      match dated (select_one (root soup) "time[datetime]") with
      | Some d => d
      | None => EmptyString
      end
  end.

Definition default_description : list string :=
  [".threaded-topic-body-wrapper"; ".qa-topic-post-box";
   ".post__content--new-editor"; ".post__content"].

Definition description_selectors : list string :=
  match sel_description self with
  | None => default_description
  | Some (One s) => [s]
  | Some (Many l) => l
  end.

Fixpoint description_loop (soup : Element) (selectors : list string) : string :=
  match selectors with
  | [] => EmptyString
  | selector :: rest =>
      match select_one soup selector with
      | Some el => get_text_lines el
      | None => description_loop soup rest
      end
  end.

Definition _extract_description (soup : Soup) : string :=
  description_loop (root soup) description_selectors.

Definition mem (x : string) (l : list string) : bool :=
  existsb (String.eqb x) l.

Definition tag_selector : string :=
  default ("a[href*=" +:+ dq +:+ "search_type=tag" +:+ dq +:+ "]") (sel_tags self).

Definition _extract_tags (soup : Soup) : list string :=
  fold_left
    (fun tags el =>
       let tag := get_text el in
       if truthy_str tag && negb (mem tag tags) then (tags ++ [tag])%list else tags)
    (select (root soup) tag_selector) [].

(** The first comma-grouped integer of a text, if it has one. *)
Definition grouped_int (text : string) : option Z :=
  option_map (fun g => int (remove_commas g)) (search_grouped_number text).

Fixpoint stat_loop (soup : Element) (selectors : list string) : Z :=
  match selectors with
  | [] => 0
  | selector :: rest =>
      match select_one soup selector with
      | Some el =>
          match grouped_int (get_text el) with
          | Some n => n
          | None => stat_loop soup rest
          end
      | None => stat_loop soup rest
      end
  end.

Definition _extract_stat (soup : Soup) (keyword : string) : Z :=
  let labelled :=
    match select_one (root soup) ("[aria-label*=" +:+ dq +:+ keyword +:+ dq +:+ "]") with
    | Some el => grouped_int (default EmptyString (get el "aria-label") +:+ " " +:+ get_text el)
    | None => None
    end in
  match labelled with
  | Some n => n
  | None =>
      stat_loop (root soup)
        ["." +:+ keyword +:+ "-count"; "." +:+ keyword +:+ "s";
         "[class*=" +:+ dq +:+ keyword +:+ dq +:+ "]"]
  end.

Definition status_label_selector : string :=
  default ".label-component" (sel_status_labels self).

Definition any_term_in (terms : list string) (label : string) : bool :=
  existsb (fun term => contains label term) terms.

Definition _extract_status (soup : Soup) : string :=
  let labels := List.map (fun el => lower (get_text el)) (select (root soup) status_label_selector) in
  let resolved := List.map lower (resolved_terms self) in
  let unresolved := List.map lower (unresolved_terms self) in
  if existsb (any_term_in resolved) labels then "resolved"
  else if existsb (any_term_in unresolved) labels then "unresolved"
  else match select_one (root soup) ".best-answer" with
       | Some _ => "resolved"
       | None => "unknown"
       end.

Definition badge_suffixes : list string :=
  ["Accepted solution"; "Author"; "Adobe Employee"; "Community Expert"; "Correct answer"].

Definition accepted_markers : list string :=
  match sel_accepted_marker self with
  | None => [".best-answer"; ".label--success"]
  | Some (One s) => [s]
  | Some (Many l) => l
  end.

(** The dictionary built for one reply container. *)
Definition reply_of (item : Element) : Reply :=
  let author_selector := default ".author-info" (sel_reply_author self) in
  let body_selector := default ".threaded-reply-body-wrapper" (sel_reply_body self) in
  let author_text :=
    match select_one item author_selector with
    | Some author_el => get_text author_el
    | None => EmptyString
    end in
  let marked :=
    existsb (fun marker => bool_decide (is_Some (select_one item marker))) accepted_markers in
  let labelled :=
    existsb (fun label => contains (lower (get_text label)) "accepted solution")
            (select item status_label_selector) in
  {| r_author := strip (sub_suffix badge_suffixes author_text);
     r_date := default EmptyString (dated (select_one item "time[datetime]"));
     r_text :=
       match select_one item body_selector with
       | Some body_el => get_text_lines body_el
       | None => EmptyString
       end;
     r_is_accepted := marked || labelled;
     r_likes :=
       match select_one item ("[aria-label*=" +:+ dq +:+ "like" +:+ dq +:+ "], [aria-label*="
                               +:+ dq +:+ "kudo" +:+ dq +:+ "]") with
       | Some like_el =>
           match search_number (default EmptyString (get like_el "aria-label")
                                +:+ " " +:+ get_text like_el) with
           | Some digits => int digits
           | None => 0
           end
       | None => 0
       end |}.

Definition _extract_replies (soup : Soup) : list Reply :=
  let reply_selector := default ".threaded-reply-item" (sel_reply_container self) in
  fold_left
    (fun replies item =>
       let reply := reply_of item in
       if truthy_str (r_text reply) || truthy_str (r_author reply)
       then (replies ++ [reply])%list else replies)
    (select (root soup) reply_selector) [].

(** *** [extract_thread] *)

(** One turn of the reply loop. *)
Definition add_reply (thread : ThreadData) (reply : Reply) : ThreadData :=
  append_comment
    (if r_is_accepted reply then set_accepted_answer thread reply else thread)
    reply.

(** The body of the [try] block once the page is parsed. *)
Definition thread_of (url : string) (soup : Soup) : ThreadData :=
  let thread :=
    {| t_url := url;
       t_title := _extract_title soup;
       t_author := _extract_author soup;
       t_date_posted := _extract_post_date soup;
       t_description := _extract_description soup;
       t_tags := _extract_tags soup;
       t_views := _extract_stat soup "view";
       t_replies_count := _extract_stat soup "repl";
       t_likes := or_int (_extract_stat soup "like") (_extract_stat soup "kudo");
       t_status := _extract_status soup;
       t_accepted_answer := None;
       t_comments := [];
       t_scraped_at := lib_strftime world (now world url) |} in
  let replies := _extract_replies soup in
  let thread := fold_left add_reply replies thread in
  set_replies_count thread (or_int (t_replies_count thread) (len (t_comments thread))).

Definition extract_thread (url : string) : Thread :=
  match open_thread world url with
  | Ok soup => Extracted (thread_of url soup)
  | Raise err => Failed url (exn_message err) (lib_strftime world (now world url))
  end.

(** *** [collect_question_urls] *)

(** The two rewrites of an [href] before it is tested and recorded. *)
Definition canonical (href : string) : string :=
  let href := sub_query href in
  if startswith href "http" then href
  else thread_base self +:+ "/" +:+ lstrip_slash href.

(** The local variables of the discovery loop. *)
Record Discovery := {
  urls : list string;
  seen : gset string;
  click_count : Z;
  stale_rounds : Z;
  page : Page world
}.

(** The body of [for link in links], on [(urls, seen, new_this_round)]. *)
Definition scan_link (acc : list string * gset string * Z) (link : string)
  : list string * gset string * Z :=
  let '(urls, seen, new_this_round) := acc in
  let href := canonical link in
  if negb (search_trailing_id href) then acc
  else if bool_decide (href ∈ seen) then acc
  else ((urls ++ [href])%list, seen ∪ {[href]}, new_this_round + 1).

(** One scan of the page, with the update of [stale_rounds]; the second
    component is [new_this_round]. *)
Definition scan (st : Discovery) : Discovery * Z :=
  let '(urls', seen', new_this_round) :=
    fold_left scan_link (listing_links world (page st)) (urls st, seen st, 0) in
  ({| urls := urls'; seen := seen';
      click_count := click_count st;
      stale_rounds := if 0 <? new_this_round then 0 else stale_rounds st + 1;
      page := page st |},
   new_this_round).

Inductive stop_reason :=
| TestLimit
| MaxPages
| StaleRounds
| LoadMoreUnavailable.

(** [self.x and value >= self.x] for an optional integer limit. *)
Definition reached (limit : option Z) (value : Z) : bool :=
  match limit with
  | Some n => truthy_int n && (n <=? value)
  | None => false
  end.

(** The part of the loop body after the scan: each [break] with the
    list that is returned after it, or the state the next turn starts
    from. *)
Definition decide_stop (st : Discovery) : Discovery + stop_reason * list string :=
  if reached (test_limit self) (len (urls st))
  then inr (TestLimit, slice_to (urls st) (default 0 (test_limit self)))
  else if reached (max_pages self) (click_count st)
  then inr (MaxPages, urls st)
  else if max_stale_rounds self <=? stale_rounds st
  then inr (StaleRounds, urls st)
  else match load_more world (page st) with
       | Some page' =>
           inl {| urls := urls st; seen := seen st;
                  click_count := click_count st + 1;
                  stale_rounds := stale_rounds st; page := page' |}
       | None => inr (LoadMoreUnavailable, urls st)
       end.

(** The record logged at the end of each scan. *)
Record RoundLog := {
  log_new_urls : Z;
  log_total_urls : Z;
  log_stale_rounds : Z;
  log_click_count : Z
}.

(** What the loop leaves: why it stopped, the list returned, the local
    variables at the [break] (before any truncation) and the records
    logged, one per round. *)
Record Collected := {
  reason : stop_reason;
  returned : list string;
  final : Discovery;
  rounds : list RoundLog
}.

(** [while True]: [fuel] bounds the number of rounds, [None] when the
    loop is still running after that many. *)
Fixpoint collect_loop (fuel : nat) (st : Discovery) (log : list RoundLog)
  : option Collected :=
  match fuel with
  | O => None
  | S fuel' =>
      let '(st1, new_this_round) := scan st in
      let log1 :=
        (log ++ [{| log_new_urls := new_this_round;
                    log_total_urls := len (urls st1);
                    log_stale_rounds := stale_rounds st1;
                    log_click_count := click_count st1 |}])%list in
      match decide_stop st1 with
      | inl st2 => collect_loop fuel' st2 log1
      | inr (why, out) =>
          Some {| reason := why; returned := out; final := st1; rounds := log1 |}
      end
  end.

(** The state the loop is entered in; [start] is the listing page after
    the first navigation. *)
Definition initial (start : Page world) : Discovery :=
  {| urls := []; seen := ∅; click_count := 0; stale_rounds := 0; page := start |}.

Definition collect (fuel : nat) (start : Page world) : option Collected :=
  collect_loop fuel (initial start) [].

Definition collect_question_urls (fuel : nat) (start : Page world) : option (list string) :=
  option_map returned (collect fuel start).

(** *** [run] *)

(** What [run] does to the world, in order: a thread extraction, a
    write of the output file by [_save] with the list it dumps, the
    release of the browser. *)
Inductive event :=
| Extract (url : string)
| Save (threads : list Thread) (checkpoint : bool)
| Quit.

Record RunState := {
  threads : list Thread;
  skipped_since : Z;
  trace : list event
}.

Definition _is_after_since (thread : Thread) : result bool :=
  match since_dt with
  | None => Ok true
  | Some since_dt =>
      match parse_date (get_date_posted thread) with
      | None => Ok true
      | Some posted => ge posted since_dt
      end
  end.

(** [thread.get("error")] as a condition. *)
Definition has_error (thread : Thread) : bool :=
  match get_error thread with
  | Some e => truthy_str e
  | None => false
  end.

(** The body of the [for] loop of [run]; the exception, if one leaves
    it, comes with the state reached. *)
Definition run_step (st : RunState) (index : Z) (url : string) : RunState * option exn :=
  let thread := extract_thread url in
  let st := {| threads := threads st; skipped_since := skipped_since st;
               trace := trace st ++ [Extract url] |} in
  let keep := if has_error thread then Ok true else _is_after_since thread in
  match keep with
  | Raise e => (st, Some e)
  | Ok keep =>
      let st :=
        if keep
        then {| threads := threads st ++ [thread]; skipped_since := skipped_since st;
                trace := trace st |}
        else {| threads := threads st; skipped_since := skipped_since st + 1;
                trace := trace st |} in
      match mod_ index (checkpoint_every self) with
      | Raise e => (st, Some e)
      | Ok r =>
          if r =? 0
          then ({| threads := threads st; skipped_since := skipped_since st;
                   trace := trace st ++ [Save (threads st) true] |}, None)
          else (st, None)
      end
  end.

Fixpoint run_loop (st : RunState) (index : Z) (urls : list string) : RunState * option exn :=
  match urls with
  | [] => (st, None)
  | url :: rest =>
      match run_step st index url with
      | (st', None) => run_loop st' (index + 1) rest
      | (st', Some e) => (st', Some e)
      end
  end.

(** A call of [run]: the events in order and how the call ends. *)
Record Outcome := {
  events : list event;
  outcome : result (list Thread)
}.

(** [run] from the list that [collect_question_urls] returned.  The
    driver is set by the constructor, so [if self.driver] holds. *)
Definition run_on (urls : list string) : Outcome :=
  match urls with
  | [] => {| events := []; outcome := Ok [] |}
  | _ :: _ =>
      match run_loop {| threads := []; skipped_since := 0; trace := [] |} 1 urls with
      | (st, Some e) => {| events := trace st; outcome := Raise e |}
      | (st, None) =>
          {| events := trace st ++ [Save (threads st) false; Quit];
             outcome := Ok (threads st) |}
      end
  end.

Definition run (fuel : nat) (start : Page world) : option Outcome :=
  option_map run_on (collect_question_urls fuel start).

End Dumper.

(** *** [main] *)

(** [arg if arg and arg > 0 else None], the way [main] turns
    [--max-pages] and [--test] into the limits of the dumper. *)
Definition positive_or_none (arg : option Z) : option Z :=
  match arg with
  | Some n => if truthy_int n && (0 <? n) then Some n else None
  | None => None
  end.

Arguments urls {world} _.
Arguments seen {world} _.
Arguments click_count {world} _.
Arguments stale_rounds {world} _.
Arguments page {world} _.
Arguments reason {world} _.
Arguments returned {world} _.
Arguments final {world} _.
Arguments rounds {world} _.

End ForumDumper.

(** ** Locating the configuration file *)

Module Setup.
Import Py.

Section ConfigPath.

(** [os.path.exists], and the list [DEFAULT_CONFIG_PATHS], which the
    module computes from the working directory and its own location. *)
Variable path_exists : string -> bool.
Variable DEFAULT_CONFIG_PATHS : list string.

(** [for candidate in DEFAULT_CONFIG_PATHS: if os.path.exists(candidate):
    return candidate]. *)
Fixpoint first_existing (candidates : list string) : option string :=
  match candidates with
  | [] => None
  | candidate :: rest =>
      if path_exists candidate then Some candidate else first_existing rest
  end.

Definition _resolve_config_path (explicit_path : option string) : result string :=
  let explicit :=
    match explicit_path with
    | Some p => if truthy_str p then Some p else None
    | None => None
    end in
  match explicit with
  | Some p =>
      if negb (path_exists p)
      then Raise (Exn "FileNotFoundError" ("Config file not found: " +:+ p))
      else Ok p
  | None =>
      match first_existing DEFAULT_CONFIG_PATHS with
      | Some candidate => Ok candidate
      | None =>
          Raise (Exn "FileNotFoundError"
                   ("Could not find forum config. Tried: "
                    +:+ join ", " DEFAULT_CONFIG_PATHS))
      end
  end.

End ConfigPath.

End Setup.

(** ** Concrete pages, dates and browsers for the closed examples *)

Module Instances.
Import Py Dom Datetime Model ForumDumper.

Definition naive (w : Z) : datetime := {| wall := w; utcoffset := None |}.
Definition aware (w offset : Z) : datetime := {| wall := w; utcoffset := Some offset |}.

(** Seconds since 1970 of the dates the examples use. *)
Definition jan_2023 : Z := 1672531200.
Definition jun_2023 : Z := 1685577600.
Definition jan_2024 : Z := 1704067200.
Definition jan_2025 : Z := 1735689600.

(** The [datetime] library on the strings the examples give it. *)
Definition ex_strptime (raw fmt : string) : option datetime :=
  if String.eqb fmt "%Y-%m-%d" then
    if String.eqb raw "2023-01-01" then Some (naive jan_2023)
    else if String.eqb raw "2023-06-01" then Some (naive jun_2023)
    else if String.eqb raw "2024-01-01" then Some (naive jan_2024)
    else None
  else if String.eqb fmt "%Y-%m-%d %H:%M:%S" then
    if String.eqb raw "2023-01-01 00:00:00" then Some (naive jan_2023)
    else if String.eqb raw "2023-06-01 00:00:00" then Some (naive jun_2023)
    else if String.eqb raw "2024-01-01 00:00:00" then Some (naive jan_2024)
    else None
  else None.

Definition ex_fromisoformat (raw : string) : option datetime :=
  if String.eqb raw "2023-06-01T00:00:00+00:00" then Some (aware jun_2023 0)
  else None.

Definition ex_strftime (d : datetime) : string :=
  if wall d =? jan_2023 then "2023-01-01 00:00:00"
  else if wall d =? jun_2023 then "2023-06-01 00:00:00"
  else if wall d =? jan_2024 then "2024-01-01 00:00:00"
  else "2025-01-01 00:00:00".

(** Elements given by a table from selectors to matches. *)
Fixpoint lookup_matches (table : list (string * list Element)) (selector : string)
  : list Element :=
  match table with
  | [] => []
  | (k, v) :: rest => if String.eqb k selector then v else lookup_matches rest selector
  end.

Definition node (attributes : list (string * string)) (text : list string)
  (table : list (string * list Element)) : Element :=
  mkElement attributes text (lookup_matches table).

Definition leaf (attributes : list (string * string)) (text : list string) : Element :=
  node attributes text [].

Definition kudo_selector : string := "[aria-label*=" +:+ dq +:+ "kudo" +:+ dq +:+ "]".

(** A reply container: author, body, and the accepted marker if [accepted]. *)
Definition reply_item (author body : string) (accepted : bool) : Element :=
  node [] [author; body]
    ([(".author-info", [leaf [] [author]]);
      (".threaded-reply-body-wrapper", [leaf [] [body]])]
     ++ (if accepted then [(".best-answer", [leaf [] ["Best answer"]])] else [])).

(** A thread page dated [date] with the given replies; its
    first body wrapper is present but holds no text, its second one
    holds the post. *)
Definition thread_page (title date : string) (replies : list Element) : Soup :=
  {| root :=
       node [] [title]
         [("h1.title", [leaf [] [" " +:+ title +:+ " "]]);
          ("time[datetime]", [leaf [("datetime", date)] []]);
          (".threaded-topic-body-wrapper", [leaf [] ["   "]]);
          (".qa-topic-post-box", [leaf [] ["How do I export"; " a report?"]]);
          (kudo_selector, [leaf [("aria-label", "12 kudos")] []]);
          (".threaded-reply-item", replies)];
     find_title := Some (leaf [] [title +:+ " | Example Forum"]) |}.

Definition export_page : Soup :=
  thread_page "Export a report" "2023-01-01"
    [reply_item "ann" "Use the File menu." true;
     reply_item "bob" "Or press Ctrl+E." true;
     reply_item "cyd" "Thanks!" false].

Definition colors_page : Soup :=
  thread_page "Pick a color" "2024-01-01" [reply_item "dee" "Use the picker." false].

Definition undated_page : Soup :=
  thread_page "No date here" "last tuesday" [].

Definition u_export : string := "https://forum.example.com/t/export-a-report-101".
Definition u_import : string := "https://forum.example.com/t/import-fails-102".
Definition u_colors : string := "https://forum.example.com/t/pick-a-color-103".
Definition u_undated : string := "https://forum.example.com/t/no-date-here-104".
Definition u_fonts : string := "https://forum.example.com/t/fonts-105".

(** The thread pages of the example forum; the second one fails to load. *)
Definition ex_open_thread (url : string) : result Soup :=
  if String.eqb url u_export then Ok export_page
  else if String.eqb url u_import then Raise (Exn "TimeoutException" "page load timed out")
  else if String.eqb url u_colors then Ok colors_page
  else Ok undated_page.

(** A browser whose listing page is [links n] after [n] clicks and
    whose load-more control works while [more n] holds. *)
Definition ex_world (links : nat -> list string) (more : nat -> bool) : World :=
  {| lib_strptime := ex_strptime;
     lib_fromisoformat := ex_fromisoformat;
     lib_strftime := ex_strftime;
     Page := nat;
     listing_links := links;
     load_more := fun n => if more n then Some (S n) else None;
     open_thread := ex_open_thread;
     now := fun _ => naive jan_2025 |}.

(** A listing page that never changes and whose control always works. *)
Definition fixed_links : list string :=
  ["/t/export-a-report-101?page=1"; "/t/tagged"; "/t/import-fails-102";
   "https://forum.example.com/t/export-a-report-101"].

Definition fixed_world : World := ex_world (fun _ => fixed_links) (fun _ => true).

(** A listing page that grows by one click, after which the control is gone. *)
Definition growing_links (n : nat) : list string :=
  match n with
  | O => ["/t/export-a-report-101"; "/t/import-fails-102?sort=new"]
  | S _ => ["/t/export-a-report-101?sort=new"; "/t/import-fails-102";
            "/t/pick-a-color-103"; "/t/export-a-report-101"]
  end.

Definition growing_world : World := ex_world growing_links (fun n => (n <? 1)%nat).

(** A listing page with no thread link at all. *)
Definition empty_world : World := ex_world (fun _ => []) (fun _ => true).

(** A configuration with the defaults of the program and the command
    line [--test], [--max-pages] and [--since]. *)
Definition ex_config (stale every : Z) (test pages : option Z) (since_arg : option string)
  : Config :=
  {| thread_base := "https://forum.example.com";
     sel_title := Some (Many ["h1.topic"; "h1.title"]);
     sel_author := None;
     sel_date := None;
     sel_description := None;
     sel_tags := None;
     sel_status_labels := None;
     sel_reply_container := None;
     sel_reply_body := None;
     sel_reply_author := None;
     sel_accepted_marker := None;
     resolved_terms := ["solved"];
     unresolved_terms := ["open"];
     max_stale_rounds := stale;
     checkpoint_every := every;
     max_pages := positive_or_none pages;
     test_limit := positive_or_none test;
     since := since_arg |}.

Definition default_config : Config := ex_config 3 50 None None None.

(** A thread page with two status labels, one of each kind. *)
Definition labelled_page : Soup :=
  {| root :=
       node [] []
         [(".label-component", [leaf [] ["Open question"]; leaf [] [" SOLVED "]])];
     find_title := None |}.

(** A reply whose author element carries a role badge. *)
Definition badged_item : Element :=
  reply_item "Jane Community Expert" "Try the picker." false.

End Instances.

(** ** The vocabulary of the specification *)

Module Spec.
Import Py Dom Datetime Model ForumDumper.

(** What one selector of a chain yields as text: the stripped text of
    its first match, nothing when the selector is void or matches no
    element. *)
Definition selector_text (soup : Element) (selector : option string) : string :=
  match selector with
  | Some s =>
      if truthy_str s
      then match select_one soup s with
           | Some el => get_text el
           | None => EmptyString
           end
      else EmptyString
  | None => EmptyString
  end.

(** The same with the line-joined text of the description. *)
Definition selector_lines (soup : Element) (selector : string) : string :=
  match select_one soup selector with
  | Some el => get_text_lines el
  | None => EmptyString
  end.

(** The first non-empty text of a sequence, the empty string when there
    is none. *)
Definition first_nonempty (texts : list string) : string :=
  default EmptyString (head (List.filter truthy_str texts)).

(** The text of the first selector that matches an element at all. *)
Definition first_present (soup : Element) (selectors : list string) : string :=
  default EmptyString
    (head (omap (fun s => option_map get_text_lines (select_one soup s)) selectors)).



(** A sequence without its repetitions, each element at its first
    position. *)
Fixpoint first_seen (l : list string) : list string :=
  match l with
  | [] => []
  | x :: rest => x :: List.filter (fun y => negb (String.eqb y x)) (first_seen rest)
  end.


(** The texts the numeric stat is looked for in, in order: the label
    and text of the element whose accessibility label holds the keyword,
    then the text of the first match of each class selector; [None]
    where there is no such element. *)
Definition stat_texts (soup : Element) (keyword : string) : list (option string) :=
  [option_map (fun el => default EmptyString (get el "aria-label") +:+ " " +:+ get_text el)
     (select_one soup ("[aria-label*=" +:+ dq +:+ keyword +:+ dq +:+ "]"));
   option_map get_text (select_one soup ("." +:+ keyword +:+ "-count"));
   option_map get_text (select_one soup ("." +:+ keyword +:+ "s"));
   option_map get_text (select_one soup ("[class*=" +:+ dq +:+ keyword +:+ dq +:+ "]"))].

(** The first comma-grouped integer found in a sequence of texts, 0
    when there is none. *)
Definition first_number (texts : list (option string)) : Z :=
  default 0 (head (omap (fun t => match t with
                                  | Some text => grouped_int text
                                  | None => None
                                  end) texts)).

(** A text without line feeds. *)
Definition one_line (s : string) : bool := all_chars (fun c => negb (is_newline c)) s.

Section Discovery.

Variable world : World.
Variable self : Config.

(** The listing pages the loop scans when it makes [n] clicks from
    [start]. *)
Fixpoint pages_scanned (n : nat) (start : Page world) : list (Page world) :=
  match n with
  | O => [start]
  | S n' =>
      start :: match load_more world start with
               | Some next => pages_scanned n' next
               | None => []
               end
  end.

(** Their links, in the order the loop meets them. *)
Definition links_scanned (n : nat) (start : Page world) : list string :=
  List.concat (List.map (listing_links world) (pages_scanned n start)).

(** The links of a sequence that pass the id test, in canonical form. *)
Definition thread_urls (links : list string) : list string :=
  List.filter search_trailing_id (List.map (canonical self) links).

(** The four stop conditions of a deciding step, in the order of the
    specification. *)
Definition stop_conditions (st : Discovery world) : list (bool * stop_reason) :=
  [(reached (test_limit self) (len (urls st)), TestLimit);
   (reached (max_pages self) (click_count st), MaxPages);
   (max_stale_rounds self <=? stale_rounds st, StaleRounds);
   (match load_more world (page st) with None => true | Some _ => false end,
    LoadMoreUnavailable)].

(** The first condition of the sequence that holds. *)
Definition first_holding (conditions : list (bool * stop_reason)) : option stop_reason :=
  option_map snd (List.find fst conditions).

End Discovery.

Section Run.

Variable world : World.
Variable self : Config.

(** Whether [run] keeps a record: an error record always, another one
    by the since-date filter.  The filter may raise. *)
Definition retain (thread : Thread) : result bool :=
  if has_error thread then Ok true else _is_after_since world self thread.

(** The filter gives an answer for the record of this URL. *)
Definition filter_answers (url : string) : Prop :=
  exists keep, retain (extract_thread world self url) = Ok keep.

Definition kept (thread : Thread) : bool :=
  match retain thread with
  | Ok keep => keep
  | Raise _ => false
  end.

(** The records accumulated once the given URLs are processed. *)
Definition accumulated (urls : list string) : list Thread :=
  List.filter kept (List.map (extract_thread world self) urls).

(** The events of the [k]-th URL of [all]: its extraction, then a
    checkpoint write of everything accumulated so far when a write is
    [due] after [k] URLs. *)
Definition url_events (due : nat -> bool) (all : list string) (k : nat) (url : string)
  : list event :=
  Extract url :: (if due k then [Save (accumulated (take k all)) true] else []).

(** The events of a run over a non-empty list that completes: those of
    each URL in turn, the final write, the release of the browser. *)
Definition expected_events (due : nat -> bool) (urls : list string) : list event :=
  List.concat (imap (fun i url => url_events due urls (S i) url) urls)
  ++ [Save (accumulated urls) false; Quit].

(** The URLs a sequence of events extracts, in order. *)
Definition extracted (events : list event) : list string :=
  omap (fun e => match e with Extract url => Some url | _ => None end) events.

(** The writes of a sequence of events, in order. *)
Definition writes (events : list event) : list (list Thread * bool) :=
  omap (fun e => match e with Save threads checkpoint => Some (threads, checkpoint) | _ => None end)
       events.

(** The releases of the browser in a sequence of events. *)
Definition quits (events : list event) : nat :=
  List.length (List.filter (fun e => match e with Quit => true | _ => false end) events).

End Run.

(** The new URLs of the rounds of a log, added up. *)
Definition total_new (log : list RoundLog) : Z :=
  fold_right Z.add 0 (List.map log_new_urls log).

(** A text that does not start with white space. *)
Definition starts_clean (s : string) : bool :=
  match s with
  | EmptyString => true
  | String c _ => negb (is_space c)
  end.

(** A reply that [_extract_replies] keeps: it has a body or an author. *)
Definition substantial (r : Reply) : bool :=
  truthy_str (r_text r) || truthy_str (r_author r).

End Spec.

Import Py Dom Datetime Model ForumDumper Instances.

(** ** Strings: reversal, line feeds and the two patterns of discovery *)

Section Strings.

#[local] Arguments String.append !_ _ / : simpl nomatch.

Lemma append_nil_r (s : string) : s +:+ EmptyString = s.
Proof. induction s as [|c s IH]; simpl; [done|]. by rewrite IH. Qed.

Lemma append_assoc (a b c : string) : (a +:+ b) +:+ c = a +:+ (b +:+ c).
Proof. induction a as [|x a IH]; simpl; [done|]. by rewrite IH. Qed.

Lemma rev_onto_append (s acc : string) : rev_onto s acc = rev s +:+ acc.
Proof.
  unfold rev. revert acc. induction s as [|c s IH]; intros acc; simpl; [done|].
  rewrite (IH (String c acc)), (IH (String c EmptyString)).
  by rewrite append_assoc.
Qed.

Lemma rev_cons (c : ascii) (s : string) : rev (String c s) = rev s +:+ String c EmptyString.
Proof. unfold rev at 1. simpl. apply rev_onto_append. Qed.

Lemma rev_append (a b : string) : rev (a +:+ b) = rev b +:+ rev a.
Proof.
  induction a as [|c a IH]; simpl.
  - change (rev EmptyString) with EmptyString. by rewrite append_nil_r.
  - by rewrite !rev_cons, IH, append_assoc.
Qed.

Lemma rev_involutive (s : string) : rev (rev s) = s.
Proof.
  induction s as [|c s IH]; [done|].
  by rewrite rev_cons, rev_append, IH.
Qed.

Lemma length_append (a b : string) :
  String.length (a +:+ b) = (String.length a + String.length b)%nat.
Proof. induction a as [|c a IH]; simpl; [done|]. by rewrite IH. Qed.

Lemma length_rev (s : string) : String.length (rev s) = String.length s.
Proof.
  induction s as [|c s IH]; [done|].
  rewrite rev_cons, length_append, IH. simpl. lia.
Qed.



Lemma take_drop_while (p : ascii -> bool) (s : string) :
  s = take_while p s +:+ drop_while p s.
Proof.
  induction s as [|c s IH]; simpl; [done|].
  destruct (p c); simpl; [|done]. by rewrite <- IH.
Qed.






(** The last character of a text that ends in a non-empty part without
    line feeds is not a line feed, so [$] anchors at its very end. *)
Lemma rev_onto_head (b acc : string) :
  b <> EmptyString -> Spec.one_line b = true ->
  exists c r, rev_onto b acc = String c r /\ is_newline c = false.
Proof.
  unfold Spec.one_line. revert acc.
  induction b as [|x b IH]; intros acc Hne H; [done|].
  simpl in H. apply andb_true_iff in H as [Hx H]. simpl.
  destruct b as [|y b'].
  - simpl. exists x, acc. split; [done|]. by destruct (is_newline x).
  - apply IH; [done|done].
Qed.

Lemma rev_onto_twice (a b acc : string) :
  rev_onto (a +:+ b) acc = rev_onto b (rev_onto a acc).
Proof. revert acc. induction a as [|c a IH]; intros acc; simpl; [done|]. apply IH. Qed.

Lemma before_dollar_one_line_end (a b : string) :
  b <> EmptyString -> Spec.one_line b = true ->
  before_dollar (a +:+ b) = a +:+ b.
Proof.
  intros Hne Hb. unfold before_dollar, rev. rewrite rev_onto_twice.
  destruct (rev_onto_head b (rev_onto a EmptyString) Hne Hb) as (c & r & -> & ->).
  done.
Qed.



End Strings.

(** ** First-seen order *)

Section FirstSeen.

Lemma mem_In (x : string) (l : list string) : mem x l = true <-> In x l.
Proof.
  unfold mem. rewrite existsb_exists. split.
  - intros (y & Hy & E). apply String.eqb_eq in E. by subst.
  - intros H. exists x. split; [done|]. apply String.eqb_refl.
Qed.

Lemma mem_app (x : string) (a b : list string) : mem x (a ++ b) = mem x a || mem x b.
Proof. unfold mem. apply existsb_app. Qed.

Lemma filter_both {A} (p q : A -> bool) (l : list A) :
  List.filter p (List.filter q l) = List.filter (fun x => q x && p x) l.
Proof.
  induction l as [|x l IH]; simpl; [done|].
  destruct (q x); simpl; [|done]. destruct (p x); by rewrite IH.
Qed.

Lemma filter_same {A} (p q : A -> bool) (l : list A) :
  (forall x, In x l -> p x = q x) -> List.filter p l = List.filter q l.
Proof. apply filter_ext_in. Qed.

Lemma first_seen_filter (p : string -> bool) (l : list string) :
  Spec.first_seen (List.filter p l) = List.filter p (Spec.first_seen l).
Proof.
  induction l as [|x l IH]; simpl; [done|].
  destruct (p x) eqn:Hp; simpl.
  - rewrite IH, !filter_both. f_equal. apply filter_same.
    intros y _. apply andb_comm.
  - rewrite IH, filter_both. apply filter_same.
    intros y _. destruct (String.eqb y x) eqn:E; simpl; [|done].
    apply String.eqb_eq in E. subst. by rewrite Hp.
Qed.

Lemma first_seen_In (x : string) (l : list string) : In x (Spec.first_seen l) <-> In x l.
Proof.
  induction l as [|y l IH]; simpl; [done|].
  rewrite filter_In, IH. split.
  - intros [->|[H _]]; auto.
  - intros [->|H]; [by left|].
    destruct (String.eqb x y) eqn:E.
    + apply String.eqb_eq in E. subst. by left.
    + right. by split.
Qed.

Lemma first_seen_NoDup (l : list string) : List.NoDup (Spec.first_seen l).
Proof.
  induction l as [|x l IH]; simpl; [constructor|].
  constructor.
  - rewrite filter_In. intros [_ H]. by rewrite String.eqb_refl in H.
  - by apply List.NoDup_filter.
Qed.

Lemma first_seen_app (a b : list string) :
  Spec.first_seen (a ++ b) =
  Spec.first_seen a ++ Spec.first_seen (List.filter (fun h => negb (mem h a)) b).
Proof.
  induction a as [|x a IH]; simpl.
  - f_equal. induction b as [|y b IHb]; simpl; [done|]. by f_equal.
  - f_equal. rewrite IH, List.filter_app. f_equal.
    rewrite <- first_seen_filter, filter_both. f_equal.
    apply filter_same. intros y _.
    rewrite String.eqb_sym. by destruct (String.eqb x y), (mem y a).
Qed.

Lemma first_seen_unlisted_snoc (l : list string) (h : string) (candidates : list string) :
  Spec.first_seen (List.filter (fun x => negb (mem x (l ++ [h]))) candidates)
  = List.filter (fun y => negb (String.eqb y h))
      (Spec.first_seen (List.filter (fun x => negb (mem x l)) candidates)).
Proof.
  rewrite <- first_seen_filter, filter_both. f_equal. apply filter_same.
  intros y _. rewrite mem_app. unfold mem at 2. simpl.
  by rewrite orb_false_r, negb_orb.
Qed.

Lemma filter_unlisted_nil (l : list string) :
  List.filter (fun h => negb (mem h [])) l = l.
Proof. induction l as [|x l IH]; simpl; [done|]. by f_equal. Qed.

Lemma first_seen_nil (l : list string) : Spec.first_seen l = [] -> l = [].
Proof. by destruct l. Qed.

End FirstSeen.

(** ** Properties of the thread extractor *)

Section ThreadExtractor.

Variable world : World.
Variable self : Config.

(** The reply loop only touches [comments] and [accepted_answer]. *)
Lemma add_reply_comments thread reply :
  t_comments (add_reply thread reply) = t_comments thread ++ [reply].
Proof. unfold add_reply. by destruct (r_is_accepted reply). Qed.

Lemma add_reply_accepted thread reply :
  t_accepted_answer (add_reply thread reply) =
  if r_is_accepted reply then Some reply else t_accepted_answer thread.
Proof. unfold add_reply. by destruct (r_is_accepted reply). Qed.

Lemma add_reply_stats thread reply :
  t_likes (add_reply thread reply) = t_likes thread
  /\ t_views (add_reply thread reply) = t_views thread
  /\ t_replies_count (add_reply thread reply) = t_replies_count thread.
Proof. unfold add_reply. by destruct (r_is_accepted reply). Qed.

Lemma reply_loop_comments replies : forall thread,
  t_comments (fold_left add_reply replies thread) = t_comments thread ++ replies.
Proof.
  induction replies as [|r rs IH]; intros thread; simpl.
  - by rewrite app_nil_r.
  - rewrite IH, add_reply_comments. by rewrite <- app_assoc.
Qed.

Lemma reply_loop_accepted replies : forall thread,
  t_accepted_answer (fold_left add_reply replies thread) =
  match last (List.filter r_is_accepted replies) with
  | Some r => Some r
  | None => t_accepted_answer thread
  end.
Proof.
  induction replies as [|r rs IH]; intros thread; simpl; [done|].
  rewrite IH, add_reply_accepted.
  destruct (r_is_accepted r) eqn:Hr; [|done].
  rewrite last_cons. by destruct (last (List.filter r_is_accepted rs)).
Qed.

Lemma reply_loop_likes replies : forall thread,
  t_likes (fold_left add_reply replies thread) = t_likes thread.
Proof.
  induction replies as [|r rs IH]; intros thread; simpl; [done|].
  rewrite IH. apply add_reply_stats.
Qed.

Lemma last_filter_accepted (replies : list Reply) :
  match last (List.filter r_is_accepted replies) with
  | Some r => r_is_accepted r = true /\ In r replies
  | None => existsb r_is_accepted replies = false
  end.
Proof.
  destruct (last (List.filter r_is_accepted replies)) as [r|] eqn:Hl.
  - apply last_Some in Hl as [l' Hl].
    assert (In r (List.filter r_is_accepted replies)) as Hin.
    { rewrite Hl. apply in_or_app. right. by left. }
    apply filter_In in Hin. tauto.
  - apply last_None in Hl.
    induction replies as [|r rs IH]; simpl in *; [done|].
    destruct (r_is_accepted r); [done|]. by apply IH.
Qed.

(** C1, as the code has it: the comments of an extracted thread are the
    parsed replies in document order, and [accepted_answer] is the LAST
    reply of that list whose accepted flag is true (each accepted reply
    overwrites the field); it is [None] exactly when no reply is
    accepted. *)
Theorem accepted_answer_is_last_accepted (url : string) (soup : Soup) :
  let replies := _extract_replies world self soup in
  let thread := thread_of world self url soup in
  t_comments thread = replies
  /\ t_accepted_answer thread = last (List.filter r_is_accepted replies)
  /\ match t_accepted_answer thread with
     | Some r => r_is_accepted r = true /\ In r replies
     | None => existsb r_is_accepted replies = false
     end.
Proof.
  intros replies thread.
  assert (t_accepted_answer thread = last (List.filter r_is_accepted replies)) as Hacc.
  { unfold thread, thread_of. simpl. fold replies.
    rewrite reply_loop_accepted. simpl.
    by destruct (last (List.filter r_is_accepted replies)). }
  split; [|split]; [|done|].
  - unfold thread, thread_of. simpl. fold replies.
    by rewrite reply_loop_comments.
  - rewrite Hacc. apply last_filter_accepted.
Qed.

(** C10: the thread-level [likes] is the [like] stat when that is not
    zero, and the [kudo] stat otherwise. *)
Theorem thread_likes_fall_back_to_kudos (url : string) (soup : Soup) :
  t_likes (thread_of world self url soup) =
  if _extract_stat soup "like" =? 0
  then _extract_stat soup "kudo"
  else _extract_stat soup "like".
Proof.
  unfold thread_of. simpl. rewrite reply_loop_likes. simpl.
  unfold or_int, truthy_int. by destruct (_extract_stat soup "like" =? 0).
Qed.

(** The text chain of [_select_text] against its specification. *)
Lemma select_text_loop_spec (soup : Element) (selectors : list (option string)) :
  select_text_loop soup selectors =
  Spec.first_nonempty (List.map (Spec.selector_text soup) selectors).
Proof.
  unfold Spec.first_nonempty.
  induction selectors as [|sel rest IH]; simpl; [done|].
  destruct sel as [s|]; simpl; [|done].
  destruct (truthy_str s); simpl; [|done].
  destruct (select_one soup s) as [el|]; simpl; [|done].
  by destruct (truthy_str (get_text el)).
Qed.

Lemma description_loop_spec (soup : Element) (selectors : list string) :
  description_loop soup selectors = Spec.first_present soup selectors.
Proof.
  unfold Spec.first_present.
  induction selectors as [|sel rest IH]; simpl; [done|].
  by destruct (select_one soup sel).
Qed.

(** The tag loop keeps each non-empty text once, at its first
    position. *)
Lemma tags_loop_spec (texts : list Element) : forall tags : list string,
  fold_left
    (fun tags el =>
       let tag := get_text el in
       if truthy_str tag && negb (mem tag tags) then tags ++ [tag] else tags)
    texts tags
  = tags ++ Spec.first_seen
              (List.filter (fun t => negb (mem t tags))
                 (List.filter truthy_str (List.map get_text texts))).
Proof.
  induction texts as [|el texts IH]; intros tags; simpl.
  - by rewrite app_nil_r.
  - destruct (truthy_str (get_text el)) eqn:Htext; simpl; [|apply IH].
    destruct (mem (get_text el) tags) eqn:Hmem; simpl; [apply IH|].
    rewrite IH, first_seen_unlisted_snoc. by rewrite <- app_assoc.
Qed.

Lemma extract_stat_spec (soup : Soup) (keyword : string) :
  _extract_stat soup keyword = Spec.first_number (Spec.stat_texts (root soup) keyword).
Proof.
  unfold _extract_stat, Spec.first_number, Spec.stat_texts. simpl.
  destruct (select_one (root soup) ("[aria-label*=" +:+ dq +:+ keyword +:+ dq +:+ "]"))
    as [el|]; simpl.
  { destruct (grouped_int _) as [n|]; simpl; [done|].
    repeat (destruct (select_one _ _) as [?|]; simpl;
            [destruct (grouped_int _) as [?|]; simpl; [done|]|]); done. }
  repeat (destruct (select_one _ _) as [?|]; simpl;
          [destruct (grouped_int _) as [?|]; simpl; [done|]|]); done.
Qed.

(** C2, as the code has it: [_select_text] returns the text of the
    first selector of the chain that yields non-empty text, moving on
    from a selector that is void, matches nothing or matches an element
    without text, and returns the empty string when none does; the
    description is the text of the first selector that matches an
    element at all, empty or not; the numeric stat is the first number
    found in the texts of its chain and 0 without one; the tags are the
    non-empty texts of the matches, the empty list without one. *)
Theorem selector_chain_fallback (soup : Soup) (selector_config : option SelectorConfig)
  (keyword : string) :
  _select_text soup selector_config =
    Spec.first_nonempty (List.map (Spec.selector_text (root soup)) (as_list selector_config))
  /\ _extract_description self soup =
    Spec.first_present (root soup) (description_selectors self)
  /\ _extract_stat soup keyword = Spec.first_number (Spec.stat_texts (root soup) keyword)
  /\ _extract_tags self soup =
    Spec.first_seen
      (List.filter truthy_str (List.map get_text (select (root soup) (tag_selector self)))).
Proof.
  split; [apply select_text_loop_spec|].
  split; [apply description_loop_spec|].
  split; [apply extract_stat_spec|].
  unfold _extract_tags. rewrite tags_loop_spec. simpl.
  by rewrite filter_unlisted_nil.
Qed.

End ThreadExtractor.

(** C1 as stated fails: on the export page two replies are accepted,
    and the field holds the second, not the first. *)
Lemma first_accepted_reply_is_overwritten :
  exists thread,
    extract_thread fixed_world default_config u_export = Extracted thread
    /\ t_accepted_answer thread <> head (List.filter r_is_accepted (t_comments thread)).
Proof. eexists. split; [reflexivity|]. vm_compute. discriminate. Qed.

(** C2 as stated fails for the description: the first body wrapper of
    the export page is present without text, the second holds the post,
    and the description is empty. *)
Lemma description_stops_at_empty_element :
  _extract_description default_config export_page = EmptyString
  /\ Spec.first_nonempty
       (List.map (Spec.selector_lines (root export_page)) (description_selectors default_config))
     <> _extract_description default_config export_page.
Proof. split; [reflexivity|]. vm_compute. discriminate. Qed.

(** ** Properties of URL discovery *)

Section UrlDiscovery.

Variable world : World.
Variable self : Config.

Lemma reached_true (limit : option Z) (value : Z) :
  reached limit value = true ->
  exists n, limit = Some n /\ n <> 0 /\ n <= value.
Proof.
  destruct limit as [n|]; simpl; [|done].
  unfold truthy_int. intros H. apply andb_true_iff in H as [H1 H2].
  exists n. split; [done|]. split; [|lia].
  intros ->. done.
Qed.

Lemma slice_to_positive {A} (l : list A) (n : Z) :
  0 < n -> n <= len l ->
  slice_to l n = take (Z.to_nat n) l /\ len (slice_to l n) = n.
Proof.
  intros Hpos Hle. unfold slice_to.
  destruct (n <? 0) eqn:E; [lia|].
  split; [done|]. unfold len in *. rewrite length_take. lia.
Qed.

(** The limits [main] passes on are positive. *)
Lemma positive_or_none_positive (arg : option Z) (n : Z) :
  positive_or_none arg = Some n -> 0 < n.
Proof.
  destruct arg as [m|]; simpl; [|done].
  destruct (truthy_int m && (0 <? m)) eqn:E; [|done].
  intros [= <-]. apply andb_true_iff in E as [_ E]. lia.
Qed.

(** C4: a deciding step stops for the first condition that holds in the
    order test limit, page limit, stale rounds, load-more control
    unavailable, and goes on to one more click when none holds; the
    list returned is the collected one, cut to exactly the test limit
    when that is the reason and whole for every other reason.  The test
    limit, when set, is positive, as [main] sets it. *)
Theorem stop_conditions_in_priority_order (st : Discovery world)
  (Hlimit : forall n, test_limit self = Some n -> 0 < n) :
  match decide_stop world self st with
  | inr (why, out) =>
      Spec.first_holding (Spec.stop_conditions world self st) = Some why
      /\ match why with
         | TestLimit =>
             exists n, test_limit self = Some n
                       /\ out = take (Z.to_nat n) (urls st) /\ len out = n
         | _ => out = urls st
         end
  | inl st' =>
      Spec.first_holding (Spec.stop_conditions world self st) = None
      /\ urls st' = urls st /\ click_count st' = click_count st + 1
  end.
Proof.
  unfold decide_stop, Spec.first_holding, Spec.stop_conditions. simpl.
  destruct (reached (test_limit self) (len (urls st))) eqn:Ht; simpl.
  { split; [done|].
    apply reached_true in Ht as (n & Hn & _ & Hle).
    exists n. rewrite Hn. simpl.
    destruct (slice_to_positive (urls st) n (Hlimit n Hn) Hle) as [-> Hlen].
    split; [done|]. split; [done|]. by rewrite <- Hlen at 2. }
  destruct (reached (max_pages self) (click_count st)) eqn:Hm; simpl; [done|].
  destruct (max_stale_rounds self <=? stale_rounds st) eqn:Hs; simpl; [done|].
  destruct (load_more world (page st)) as [next|]; simpl; done.
Qed.

End UrlDiscovery.

(** With [--test 2] the fixed listing stops at the first round for the
    test limit, with two URLs. *)
Lemma stop_conditions_in_priority_order_witness :
  let self := ex_config 3 50 (Some 2) None None in
  let st := fst (scan fixed_world self (initial fixed_world 0%nat)) in
  (forall n, test_limit self = Some n -> 0 < n)
  /\ decide_stop fixed_world self st
     = inr (TestLimit, ["https://forum.example.com/t/export-a-report-101";
                        "https://forum.example.com/t/import-fails-102"]).
Proof.
  intros self st.
  assert (forall n, test_limit self = Some n -> 0 < n) as Hlimit
    by apply positive_or_none_positive.
  split; [exact Hlimit|].
  pose proof (stop_conditions_in_priority_order fixed_world self st Hlimit) as H.
  destruct (decide_stop fixed_world self st) as [st'|[why out]] eqn:E.
  - destruct H as [H _]. vm_compute in H. discriminate.
  - destruct H as [Hwhy Hout]. vm_compute in Hwhy. injection Hwhy as <-.
    destruct Hout as (n & Hn & -> & _).
    vm_compute in Hn. injection Hn as <-. reflexivity.
Defined.

(** ** The scan of one listing page *)

Section Scanning.

Variable world : World.
Variable self : Config.

Lemma thread_urls_cons (link : string) (links : list string) :
  Spec.thread_urls self (link :: links) =
  if search_trailing_id (canonical self link)
  then canonical self link :: Spec.thread_urls self links
  else Spec.thread_urls self links.
Proof. reflexivity. Qed.

Lemma thread_urls_app (a b : list string) :
  Spec.thread_urls self (a ++ b) = Spec.thread_urls self a ++ Spec.thread_urls self b.
Proof. unfold Spec.thread_urls. by rewrite List.map_app, List.filter_app. Qed.

Lemma seen_mem (h : string) (l : list string) :
  bool_decide (h ∈ (list_to_set l : gset string)) = mem h l.
Proof.
  destruct (mem h l) eqn:E.
  - apply bool_decide_eq_true. apply elem_of_list_to_set, list_elem_of_In.
    by apply mem_In.
  - apply bool_decide_eq_false. intros H.
    apply elem_of_list_to_set, list_elem_of_In, mem_In in H. congruence.
Qed.

Lemma len_app {A} (a b : list A) : len (a ++ b) = len a + len b.
Proof. unfold len. rewrite length_app. lia. Qed.

Lemma len_cons {A} (x : A) (l : list A) : len (x :: l) = 1 + len l.
Proof. unfold len. change (List.length (x :: l)) with (S (List.length l)). lia. Qed.

(** A scan appends the thread URLs of the page that are not yet
    listed, each once and in first-seen order, and counts them. *)
Lemma scan_links_fresh (links : list string) : forall (l : list string) (s : gset string) (new : Z),
  s = list_to_set l ->
  let fresh :=
    Spec.first_seen (List.filter (fun h => negb (mem h l)) (Spec.thread_urls self links)) in
  fold_left (scan_link self) links (l, s, new)
  = (l ++ fresh, list_to_set (l ++ fresh), new + len fresh).
Proof.
  induction links as [|link links IH]; intros l s new Hs fresh.
  - subst fresh. simpl. rewrite app_nil_r, Z.add_0_r. by subst.
  - cbn [fold_left]. subst fresh. rewrite thread_urls_cons.
    unfold scan_link at 2.
    destruct (search_trailing_id (canonical self link)) eqn:Hid; simpl negb; cbv iota.
    + rewrite Hs, seen_mem. cbn [List.filter].
      destruct (mem (canonical self link) l) eqn:Hm; simpl negb; cbv iota.
      * rewrite <- Hs. by apply IH.
      * rewrite (IH (l ++ [canonical self link]) _ (new + 1)).
        2:{ rewrite list_to_set_app_L. simpl. by rewrite (right_id_L ∅ (∪)). }
        cbn [Spec.first_seen].
        rewrite first_seen_unlisted_snoc.
        rewrite <- !app_assoc. simpl. f_equal.
        rewrite len_cons. lia.
    + by apply IH.
Qed.

(** Whatever the state, a scan counts exactly the URLs it appends. *)
Lemma scan_links_count (links : list string) : forall (l : list string) (s : gset string) (new : Z),
  let '(l', _, new') := fold_left (scan_link self) links (l, s, new) in
  new' - new = len l' - len l /\ 0 <= new' - new.
Proof.
  induction links as [|link links IH]; intros l s new.
  - simpl. lia.
  - cbn [fold_left]. unfold scan_link at 2.
    destruct (negb (search_trailing_id (canonical self link))); [apply IH|].
    destruct (bool_decide (canonical self link ∈ s)); [apply IH|].
    specialize (IH (l ++ [canonical self link]) (s ∪ {[canonical self link]}) (new + 1)).
    destruct (fold_left _ _ _) as [[l' s'] new'].
    rewrite len_app, len_cons in IH. unfold len in *. simpl in IH. lia.
Qed.

End Scanning.

(** ** Stale rounds *)

Section StaleRounds.

Variable world : World.
Variable self : Config.

Lemma scan_spec (st : Discovery world) :
  seen st = list_to_set (urls st) ->
  let fresh :=
    Spec.first_seen
      (List.filter (fun h => negb (mem h (urls st)))
         (Spec.thread_urls self (listing_links world (page st)))) in
  scan world self st
  = ({| urls := urls st ++ fresh; seen := list_to_set (urls st ++ fresh);
        click_count := click_count st;
        stale_rounds := if 0 <? len fresh then 0 else stale_rounds st + 1;
        page := page st |},
     len fresh).
Proof.
  intros Hs fresh. unfold scan.
  rewrite (scan_links_fresh self _ _ _ 0 Hs). fold fresh. by rewrite Z.add_0_l.
Qed.

Lemma scan_accounting (st : Discovery world) :
  let '(st1, new_this_round) := scan world self st in
  new_this_round = len (urls st1) - len (urls st)
  /\ 0 <= new_this_round
  /\ stale_rounds st1 = (if 0 <? new_this_round then 0 else stale_rounds st + 1)
  /\ click_count st1 = click_count st.
Proof.
  unfold scan.
  pose proof (scan_links_count self (listing_links world (page st)) (urls st) (seen st) 0) as H.
  destruct (fold_left _ _ _) as [[l' s'] new']. simpl. intuition lia.
Qed.

Lemma filter_covered (l seen_urls : list string) :
  (forall h, In h l -> In h seen_urls) ->
  List.filter (fun h => negb (mem h seen_urls)) l = [].
Proof.
  intros H. induction l as [|x l IH]; simpl; [done|].
  assert (mem x seen_urls = true) as -> by (apply mem_In, H; by left).
  simpl. apply IH. intros h Hh. apply H. by right.
Qed.

Variable start : Page world.
Hypothesis Hfixed : forall p, listing_links world p = listing_links world start.
Hypothesis Hclick : forall p, load_more world p <> None.
Hypothesis Htest : test_limit self = None.
Hypothesis Hpages : max_pages self = None.

(** Once every thread URL of the page is listed, the loop runs until
    the stale counter reaches the threshold and stops there. *)
Lemma stale_countdown (k : nat) : forall (st : Discovery world) (log : list RoundLog),
  seen st = list_to_set (urls st) ->
  (forall h, In h (Spec.thread_urls self (listing_links world start)) -> In h (urls st)) ->
  Z.of_nat k = Z.max 1 (max_stale_rounds self - stale_rounds st) ->
  (forall fuel, (fuel < k)%nat -> collect_loop world self fuel st log = None)
  /\ (forall fuel, (k <= fuel)%nat ->
      exists c, collect_loop world self fuel st log = Some c
                /\ reason c = StaleRounds
                /\ returned c = urls st
                /\ stale_rounds (final c) = stale_rounds st + Z.of_nat k
                /\ exists tail, rounds c = log ++ tail
                                /\ List.length tail = k
                                /\ Forall (fun r => log_new_urls r = 0) tail).
Proof.
  induction k as [|k IH]; intros st log Hs Hcov Hk; [lia|].
  pose proof (scan_spec st Hs) as Hscan. simpl in Hscan.
  rewrite Hfixed, (filter_covered _ _ Hcov) in Hscan. simpl in Hscan.
  rewrite app_nil_r in Hscan. change (len (@nil string)) with 0 in Hscan.
  set (st1 := {| urls := urls st; seen := list_to_set (urls st);
                 click_count := click_count st;
                 stale_rounds := stale_rounds st + 1; page := page st |}) in *.
  set (entry := {| log_new_urls := 0; log_total_urls := len (urls st1);
                   log_stale_rounds := stale_rounds st1;
                   log_click_count := click_count st1 |}).
  assert (forall fuel, collect_loop world self (S fuel) st log =
            match decide_stop world self st1 with
            | inl st2 => collect_loop world self fuel st2 (log ++ [entry])
            | inr (why, out) =>
                Some {| reason := why; returned := out; final := st1;
                        rounds := log ++ [entry] |}
            end) as Hstep.
  { intros fuel. cbn [collect_loop]. by rewrite Hscan. }
  assert (decide_stop world self st1 =
            if max_stale_rounds self <=? stale_rounds st + 1
            then inr (StaleRounds, urls st)
            else match load_more world (page st) with
                 | Some page' =>
                     inl {| urls := urls st; seen := list_to_set (urls st);
                            click_count := click_count st + 1;
                            stale_rounds := stale_rounds st + 1; page := page' |}
                 | None => inr (LoadMoreUnavailable, urls st)
                 end) as Hdec.
  { unfold decide_stop. by rewrite Htest, Hpages. }
  destruct (max_stale_rounds self <=? stale_rounds st + 1) eqn:Hstale.
  - (* the threshold is reached in this round *)
    assert (k = 0%nat) as -> by lia.
    split; intros fuel Hfuel.
    + assert (fuel = 0%nat) as -> by lia. done.
    + destruct fuel as [|fuel]; [lia|].
      rewrite Hstep, Hdec. eexists. split; [done|]. simpl.
      split; [done|]. split; [done|]. split; [lia|].
      exists [entry]. split; [done|]. split; [done|].
      constructor; [done|constructor].
  - destruct (load_more world (page st)) as [page'|] eqn:Hmore; [|by destruct (Hclick (page st))].
    set (st2 := {| urls := urls st; seen := list_to_set (urls st);
                   click_count := click_count st + 1;
                   stale_rounds := stale_rounds st + 1; page := page' |}) in *.
    destruct (IH st2 (log ++ [entry])) as [IHnone IHsome]; [done|done|simpl; lia|].
    split; intros fuel Hfuel.
    + destruct fuel as [|fuel]; [done|].
      rewrite Hstep, Hdec. apply IHnone. lia.
    + destruct fuel as [|fuel]; [lia|].
      rewrite Hstep, Hdec.
      destruct (IHsome fuel) as (c & Hc & Hwhy & Hout & Hfinal & tail & Hlog & Hlen & Hzero); [lia|].
      exists c. split; [done|]. split; [done|]. split; [done|].
      split; [simpl in Hfinal; lia|].
      exists (entry :: tail). split; [by rewrite Hlog, <- app_assoc|].
      split; [simpl; lia|]. by constructor.
Qed.

(** On a page that never changes, with no other limit in the way: the
    first round lists the thread URLs of the page, every later round
    adds none, and the loop stops for the stale threshold after exactly
    [expected] rounds, no sooner. *)
Lemma fixed_page_halts :
  let found := Spec.first_seen (Spec.thread_urls self (listing_links world start)) in
  let productive := match found with [] => 0 | _ :: _ => 1 end in
  let expected := Z.to_nat (Z.max 1 (max_stale_rounds self + productive)) in
  (forall fuel, (fuel < expected)%nat -> collect world self fuel start = None)
  /\ (forall fuel, (expected <= fuel)%nat ->
      exists c, collect world self fuel start = Some c
                /\ reason c = StaleRounds
                /\ returned c = found
                /\ List.length (rounds c) = expected
                /\ stale_rounds (final c) = Z.of_nat expected - productive
                /\ Forall (fun r => log_new_urls r = 0) (drop (Z.to_nat productive) (rounds c))
                /\ (0 < max_stale_rounds self -> stale_rounds (final c) = max_stale_rounds self)).
Proof.
  intros found productive expected. unfold collect.
  destruct found as [|u rest] eqn:Hfound.
  - (* nothing on the page: every round is stale *)
    apply first_seen_nil in Hfound.
    destruct (stale_countdown expected (initial world start) []) as [Hnone Hsome].
    + done.
    + intros h Hh. rewrite Hfound in Hh. done.
    + subst expected productive. simpl. lia.
    + split; [done|]. intros fuel Hfuel.
      destruct (Hsome fuel Hfuel) as (c & Hc & Hwhy & Hout & Hfinal & tail & Hlog & Hlen & Hzero).
      exists c. split; [done|]. split; [done|]. split; [done|].
      simpl in Hlog, Hfinal. rewrite Hlog.
      split; [done|]. split; [subst productive; lia|]. split; [done|].
      intros HN. subst expected productive. lia.
  - (* the first round lists the page *)
    pose proof (scan_spec (initial world start) eq_refl) as Hscan. simpl in Hscan.
    rewrite filter_unlisted_nil in Hscan. fold found in Hscan. rewrite Hfound in Hscan.
    rewrite len_cons in Hscan.
    assert ((0 <? 1 + len rest) = true) as Hpos by (apply Z.ltb_lt; unfold len; lia).
    rewrite Hpos in Hscan. clear Hpos.
    set (st1 := {| urls := u :: rest; seen := list_to_set (u :: rest);
                   click_count := 0; stale_rounds := 0; page := start |}) in *.
    set (entry := {| log_new_urls := 1 + len rest; log_total_urls := len (urls st1);
                     log_stale_rounds := stale_rounds st1;
                     log_click_count := click_count st1 |}).
    assert (forall fuel, collect_loop world self (S fuel) (initial world start) [] =
              match decide_stop world self st1 with
              | inl st2 => collect_loop world self fuel st2 [entry]
              | inr (why, out) =>
                  Some {| reason := why; returned := out; final := st1;
                          rounds := [entry] |}
              end) as Hstep.
    { intros fuel. cbn [collect_loop]. by rewrite Hscan. }
    assert (decide_stop world self st1 =
              if max_stale_rounds self <=? 0
              then inr (StaleRounds, u :: rest)
              else match load_more world start with
                   | Some page' =>
                       inl {| urls := u :: rest; seen := list_to_set (u :: rest);
                              click_count := 0 + 1;
                              stale_rounds := 0; page := page' |}
                   | None => inr (LoadMoreUnavailable, u :: rest)
                   end) as Hdec.
    { unfold decide_stop. by rewrite Htest, Hpages. }
    destruct (max_stale_rounds self <=? 0) eqn:Hstale.
    + assert (expected = 1%nat) as -> by (subst expected productive; lia).
      split; intros fuel Hfuel.
      * assert (fuel = 0%nat) as -> by lia. done.
      * destruct fuel as [|fuel]; [lia|].
        rewrite Hstep, Hdec. eexists. split; [done|]. simpl.
        split; [done|]. split; [done|]. split; [done|]. split; [done|].
        split; [constructor|]. lia.
    + destruct (load_more world start) as [page'|] eqn:Hmore; [|by destruct (Hclick start)].
      set (st2 := {| urls := u :: rest; seen := list_to_set (u :: rest);
                     click_count := 0 + 1; stale_rounds := 0; page := page' |}) in *.
      destruct (stale_countdown (Z.to_nat (max_stale_rounds self)) st2 [entry])
        as [Hnone Hsome].
      { done. }
      { intros h Hh. change (In h (u :: rest)). rewrite <- Hfound. by apply first_seen_In. }
      { simpl. lia. }
      assert (expected = S (Z.to_nat (max_stale_rounds self))) as ->
        by (subst expected productive; lia).
      split; intros fuel Hfuel.
      * destruct fuel as [|fuel]; [done|].
        rewrite Hstep, Hdec. apply Hnone. lia.
      * destruct fuel as [|fuel]; [lia|].
        rewrite Hstep, Hdec.
        destruct (Hsome fuel) as (c & Hc & Hwhy & Hout & Hfinal & tail & Hlog & Hlen & Hzero);
          [lia|].
        exists c. split; [done|]. split; [done|]. split; [done|].
        rewrite Hlog. simpl in Hfinal.
        split; [simpl; lia|]. split; [subst productive; lia|].
        split; [done|]. lia.
Qed.

End StaleRounds.

(** C3: a scan counts the URLs it adds; a round that adds none
    increments [stale_rounds] and any other round resets it to 0; and on
    a page source that never changes (with a working load-more control
    and no test or page limit) the loop stops for the stale condition
    after exactly as many consecutive rounds without a new URL as the
    threshold says, not before: [fuel] rounds are not enough below that
    number, and at it the stale counter equals the threshold. *)
Theorem stale_round_accounting (world : World) (self : Config) (start : Page world) :
  (forall st : Discovery world,
     let '(st1, new_this_round) := scan world self st in
     new_this_round = len (urls st1) - len (urls st)
     /\ 0 <= new_this_round
     /\ stale_rounds st1 = (if 0 <? new_this_round then 0 else stale_rounds st + 1)
     /\ click_count st1 = click_count st)
  /\ ((forall p, listing_links world p = listing_links world start) ->
      (forall p, load_more world p <> None) ->
      test_limit self = None ->
      max_pages self = None ->
      let found := Spec.first_seen (Spec.thread_urls self (listing_links world start)) in
      let productive := match found with [] => 0 | _ :: _ => 1 end in
      let expected := Z.to_nat (Z.max 1 (max_stale_rounds self + productive)) in
      (forall fuel, (fuel < expected)%nat -> collect world self fuel start = None)
      /\ (forall fuel, (expected <= fuel)%nat ->
          exists c, collect world self fuel start = Some c
             /\ reason c = StaleRounds
             /\ returned c = found
             /\ List.length (rounds c) = expected
             /\ stale_rounds (final c) = Z.of_nat expected - productive
             /\ Forall (fun r => log_new_urls r = 0)
                       (drop (Z.to_nat productive) (rounds c))
             /\ (0 < max_stale_rounds self ->
                 stale_rounds (final c) = max_stale_rounds self))).
Proof.
  split.
  - apply scan_accounting.
  - intros Hfixed Hclick Htest Hpages. by apply fixed_page_halts.
Qed.

(** The fixed listing with the default threshold 3: four rounds, the
    last three without a new URL. *)
Lemma stale_round_accounting_witness :
  (forall p, listing_links fixed_world p = listing_links fixed_world 0%nat)
  /\ (forall p, load_more fixed_world p <> None)
  /\ test_limit default_config = None
  /\ max_pages default_config = None
  /\ collect fixed_world default_config 3 0%nat = None
  /\ exists c, collect fixed_world default_config 4 0%nat = Some c
               /\ reason c = StaleRounds
               /\ List.map log_new_urls (rounds c) = [2; 0; 0; 0]
               /\ stale_rounds (final c) = 3.
Proof.
  assert (forall p, listing_links fixed_world p = listing_links fixed_world 0%nat) as H1 by done.
  assert (forall p, load_more fixed_world p <> None) as H2 by done.
  destruct (stale_round_accounting fixed_world default_config 0%nat) as [_ H].
  destruct (H H1 H2 eq_refl eq_refl) as [Hnone Hsome].
  split; [done|]. split; [done|]. split; [done|]. split; [done|].
  split.
  - apply Hnone. vm_compute. lia.
  - destruct (Hsome 4%nat) as (c & Hc & Hwhy & _ & _ & Hfinal & _ & _).
    { vm_compute. lia. }
    exists c. split; [done|]. split; [done|].
    vm_compute in Hc. injection Hc as <-. split; reflexivity.
Defined.

(** ** The discovered sequence *)

Section Discovered.

Variable world : World.
Variable self : Config.

Lemma decide_stop_continues (st st2 : Discovery world) :
  decide_stop world self st = inl st2 ->
  exists page', load_more world (page st) = Some page'
    /\ st2 = {| urls := urls st; seen := seen st;
                click_count := click_count st + 1;
                stale_rounds := stale_rounds st; page := page' |}.
Proof.
  unfold decide_stop.
  destruct (reached (test_limit self) (len (urls st))); [done|].
  destruct (reached (max_pages self) (click_count st)); [done|].
  destruct (max_stale_rounds self <=? stale_rounds st); [done|].
  destruct (load_more world (page st)) as [page'|]; [|done].
  intros [= <-]. by exists page'.
Qed.

Lemma decide_stop_returns (st : Discovery world) (why : stop_reason) (out : list string) :
  decide_stop world self st = inr (why, out) -> exists k, out = take k (urls st).
Proof.
  unfold decide_stop, slice_to.
  destruct (reached (test_limit self) (len (urls st))).
  { intros [= _ <-]. destruct (default 0 (test_limit self) <? 0); by eexists. }
  assert (urls st = take (List.length (urls st)) (urls st)) as Hall
    by (by rewrite firstn_all).
  destruct (reached (max_pages self) (click_count st)); [intros [= _ <-]; by eexists|].
  destruct (max_stale_rounds self <=? stale_rounds st); [intros [= _ <-]; by eexists|].
  destruct (load_more world (page st)); [done|intros [= _ <-]; by eexists].
Qed.

Lemma links_scanned_zero (p : Page world) :
  Spec.links_scanned world 0 p = listing_links world p.
Proof. unfold Spec.links_scanned. simpl. apply app_nil_r. Qed.

Lemma links_scanned_succ (n : nat) (p next : Page world) :
  load_more world p = Some next ->
  Spec.links_scanned world (S n) p = listing_links world p ++ Spec.links_scanned world n next.
Proof. intros H. unfold Spec.links_scanned. simpl. by rewrite H. Qed.

(** The invariant of the loop: the list holds the thread URLs of all
    the links scanned so far, each once, at its first position. *)
Lemma collect_loop_first_seen (fuel : nat) :
  forall (st : Discovery world) (log : list RoundLog) (c : Collected world)
         (earlier : list string),
  collect_loop world self fuel st log = Some c ->
  seen st = list_to_set (urls st) ->
  urls st = Spec.first_seen (Spec.thread_urls self earlier) ->
  exists n : nat,
    click_count (final c) = click_count st + Z.of_nat n
    /\ urls (final c)
       = Spec.first_seen (Spec.thread_urls self (earlier ++ Spec.links_scanned world n (page st)))
    /\ decide_stop world self (final c) = inr (reason c, returned c).
Proof.
  induction fuel as [|fuel IH]; intros st log c earlier Hc Hseen Hurls; [done|].
  cbn [collect_loop] in Hc.
  pose proof (scan_spec world self st Hseen) as Hscan. simpl in Hscan.
  rewrite Hscan in Hc. clear Hscan.
  set (links := listing_links world (page st)) in *.
  assert (urls st ++ Spec.first_seen
                       (List.filter (fun h => negb (mem h (urls st)))
                          (Spec.thread_urls self links))
          = Spec.first_seen (Spec.thread_urls self (earlier ++ links))) as Hnew.
  { rewrite thread_urls_app, first_seen_app, <- Hurls. f_equal. f_equal.
    apply filter_same. intros h _. f_equal.
    apply eq_true_iff_eq. rewrite !mem_In, Hurls. apply first_seen_In. }
  rewrite Hnew in Hc.
  match type of Hc with
  | context [decide_stop world self ?s] => set (st1 := s) in *
  end.
  destruct (decide_stop world self st1) as [st2|[why out]] eqn:Hdec.
  - apply decide_stop_continues in Hdec as (page' & Hmore & ->).
    apply (IH _ _ _ (earlier ++ links)) in Hc as (n & Hclicks & Hfinal & Hstop); [|done|done].
    exists (S n). simpl in *. split; [lia|]. split; [|done].
    rewrite Hfinal. unfold links. rewrite (links_scanned_succ n _ _ Hmore).
    by rewrite app_assoc.
  - injection Hc as <-. exists 0%nat. simpl. split; [lia|]. split; [|done].
    by rewrite links_scanned_zero.
Qed.




End Discovered.


(** ** Properties of the run *)

Section RunLoop.

Variable world : World.
Variable self : Config.

(** An error record is kept whatever the since-date. *)
Lemma failed_is_retained (url error scraped_at : string) :
  Spec.retain world self (Failed url error scraped_at) = Ok true.
Proof.
  unfold Spec.retain, has_error, _is_after_since. simpl.
  destruct (truthy_str error); [done|].
  by destruct (since_dt world self).
Qed.

Lemma accumulated_snoc (done : list string) (url : string) :
  Spec.accumulated world self (done ++ [url]) =
  Spec.accumulated world self done
  ++ (if Spec.kept world self (extract_thread world self url)
      then [extract_thread world self url] else []).
Proof. unfold Spec.accumulated. by rewrite List.map_app, List.filter_app. Qed.

(** The modulo test of the loop. *)
Lemma mod_test (k : Z) :
  checkpoint_every self <> 0 ->
  mod_ k (checkpoint_every self) = Ok (k mod checkpoint_every self)
  /\ ((k mod checkpoint_every self =? 0) = true <-> (checkpoint_every self | k)).
Proof.
  intros H. unfold mod_. destruct (checkpoint_every self =? 0) eqn:E; [lia|].
  split; [done|]. rewrite Z.eqb_eq. by apply Z.mod_divide.
Qed.

Lemma run_loop_events (all : list string) (Hevery : checkpoint_every self <> 0) :
  let due := fun k : nat => Z.of_nat k mod checkpoint_every self =? 0 in
  forall (rest done : list string) (st : RunState),
  all = done ++ rest ->
  (forall url, In url rest -> Spec.filter_answers world self url) ->
  threads st = Spec.accumulated world self done ->
  exists st',
    run_loop world self st (Z.of_nat (List.length done) + 1) rest = (st', None)
    /\ threads st' = Spec.accumulated world self all
    /\ trace st' = trace st
         ++ List.concat
              (imap (fun i url => Spec.url_events world self due all (List.length done + S i) url)
                    rest).
Proof.
  intros due.
  induction rest as [|url rest IH]; intros done st Hall Hans Hthreads.
  - exists st. simpl. rewrite app_nil_r in *. by subst.
  - destruct (Hans url (or_introl eq_refl)) as [keep Hkeep].
    assert (Spec.kept world self (extract_thread world self url) = keep) as Hkept
      by (unfold Spec.kept; by rewrite Hkeep).
    set (k := (List.length done + 1)%nat).
    assert (Z.of_nat (List.length done) + 1 = Z.of_nat k) as -> by lia.
    assert (take k all = done ++ [url]) as Htake.
    { subst all k. rewrite (take_app_add done (url :: rest) 1). done. }
    set (threads1 := if keep then threads st ++ [extract_thread world self url] else threads st).
    assert (threads1 = Spec.accumulated world self (done ++ [url])) as Hthreads1.
    { subst threads1. rewrite accumulated_snoc, Hkept, <- Hthreads.
      destruct keep; [done|by rewrite app_nil_r]. }
    set (st1 := {| threads := threads1;
                   skipped_since := if keep then skipped_since st else skipped_since st + 1;
                   trace := trace st ++ Spec.url_events world self due all k url |}).
    assert (run_step world self st (Z.of_nat k) url = (st1, None)) as Hstep.
    { unfold run_step. cbv zeta. unfold Spec.retain in Hkeep. rewrite Hkeep.
      destruct (mod_test (Z.of_nat k) Hevery) as [-> _].
      subst st1. unfold Spec.url_events. rewrite Htake, <- Hthreads1. subst threads1 due.
      cbv beta.
      destruct keep; destruct (Z.of_nat k mod checkpoint_every self =? 0);
        cbn [threads skipped_since trace]; rewrite <- ?app_assoc; reflexivity. }
    cbn [run_loop]. rewrite Hstep.
    destruct (IH (done ++ [url]) st1) as (st' & Hloop & Hth & Htr).
    { subst all. by rewrite <- app_assoc. }
    { intros u Hu. apply Hans. by right. }
    { done. }
    rewrite length_app in Hloop, Htr. simpl in Hloop, Htr.
    assert (Z.of_nat (List.length done + 1) + 1 = Z.of_nat k + 1) as Hidx by lia.
    rewrite Hidx in Hloop. clear Hidx.
    exists st'. split; [done|]. split; [done|].
    rewrite Htr. cbn [imap List.concat].
    replace (List.length done + 1)%nat with k by done.
    rewrite <- !app_assoc. do 3 f_equal.
    apply imap_ext. intros i u _. simpl. f_equal. lia.
Qed.

(** A run over a non-empty list on which neither the modulo test nor
    the since-date filter raises. *)
Lemma run_on_completes (urls : list string) :
  urls <> [] ->
  checkpoint_every self <> 0 ->
  (forall url, In url urls -> Spec.filter_answers world self url) ->
  run_on world self urls
  = {| events :=
         Spec.expected_events world self
           (fun k : nat => Z.of_nat k mod checkpoint_every self =? 0) urls;
       outcome := Ok (Spec.accumulated world self urls) |}.
Proof.
  intros Hne Hevery Hans.
  destruct (run_loop_events urls Hevery urls []
              {| threads := []; skipped_since := 0; trace := [] |})
    as (st' & Hloop & Hth & Htr); [done|done|done|].
  simpl in Hloop, Htr. change (Z.of_nat 0 + 1) with 1 in Hloop.
  unfold run_on. destruct urls as [|u rest]; [done|].
  rewrite Hloop, Hth, Htr. done.
Qed.

Lemma extracted_app (a b : list event) :
  Spec.extracted (a ++ b) = Spec.extracted a ++ Spec.extracted b.
Proof. unfold Spec.extracted. apply omap_app. Qed.

Lemma writes_app (a b : list event) :
  Spec.writes (a ++ b) = Spec.writes a ++ Spec.writes b.
Proof. unfold Spec.writes. apply omap_app. Qed.

Lemma quits_app (a b : list event) :
  Spec.quits (a ++ b) = (Spec.quits a + Spec.quits b)%nat.
Proof. unfold Spec.quits. by rewrite List.filter_app, length_app. Qed.

(** What the events of the URLs amount to: every URL is extracted, in
    order; a write follows the [k]-th exactly when one is due; the
    browser is not released. *)
Lemma url_events_summary (due : nat -> bool) (all : list string) :
  forall (rest : list string) (j : nat),
  let events :=
    List.concat (imap (fun i url => Spec.url_events world self due all (j + S i) url) rest) in
  Spec.extracted events = rest
  /\ Spec.writes events
     = omap (fun k => if due k
                      then Some (Spec.accumulated world self (take k all), true)
                      else None)
            (seq (S j) (List.length rest))
  /\ Spec.quits events = 0%nat.
Proof.
  induction rest as [|url rest IH]; intros j events; [done|].
  subst events. cbn [imap List.concat].
  destruct (IH (S j)) as (Hex & Hwr & Hq).
  rewrite (imap_ext _ (fun i url => Spec.url_events world self due all (S j + S i) url) rest).
  2:{ intros i u _. simpl. f_equal. lia. }
  rewrite extracted_app, writes_app, quits_app, Hex, Hwr, Hq.
  replace (j + 1)%nat with (S j) by lia.
  unfold Spec.url_events. cbn [seq List.length].
  destruct (due (S j)) eqn:Hdue.
  - split; [done|]. split; [|done]. simpl. by rewrite Hdue.
  - split; [done|]. split; [|done]. simpl. by rewrite Hdue.
Qed.

Lemma expected_events_summary (due : nat -> bool) (urls : list string) :
  Spec.extracted (Spec.expected_events world self due urls) = urls
  /\ Spec.writes (Spec.expected_events world self due urls)
     = omap (fun k => if due k
                      then Some (Spec.accumulated world self (take k urls), true)
                      else None)
            (seq 1 (List.length urls))
       ++ [(Spec.accumulated world self urls, false)]
  /\ Spec.quits (Spec.expected_events world self due urls) = 1%nat
  /\ last (Spec.expected_events world self due urls) = Some Quit.
Proof.
  unfold Spec.expected_events.
  destruct (url_events_summary due urls urls 0) as (Hex & Hwr & Hq). simpl in Hex, Hwr, Hq.
  rewrite extracted_app, writes_app, quits_app, Hex, Hwr, Hq.
  split; [by rewrite app_nil_r|]. split; [done|]. split; [done|].
  rewrite last_app. done.
Qed.

(** Where a run over a non-empty list completes, the browser is released
    once, by the last event. *)
Lemma completed_run_quits_once (urls : list string) :
  urls <> [] ->
  checkpoint_every self <> 0 ->
  (forall url, In url urls -> Spec.filter_answers world self url) ->
  Spec.quits (events (run_on world self urls)) = 1%nat
  /\ last (events (run_on world self urls)) = Some Quit.
Proof.
  intros Hne Hevery Hans. rewrite (run_on_completes urls Hne Hevery Hans).
  cbn [events]. apply expected_events_summary.
Qed.

(** C9, the failing case: when discovery returns the empty list, [run]
    returns the empty list normally and has released nothing; the
    browser is not quit. *)
Theorem empty_discovery_skips_quit :
  outcome (run_on world self []) = Ok []
  /\ events (run_on world self []) = []
  /\ Spec.quits (events (run_on world self [])) = 0%nat.
Proof. done. Qed.

End RunLoop.

(** ** The since-date filter *)

Section SinceFilter.

Variable world : World.
Variable self : Config.

(** Two naive dates, or two aware ones, compare without raising. *)
Lemma ge_naive (a b : datetime) :
  utcoffset a = None -> utcoffset b = None -> ge a b = Ok (wall b <=? wall a).
Proof. unfold ge. by intros -> ->. Qed.

(** Where the comparison is between naive dates, a record is kept when
    no since-date is set, when its date does not parse, or when its
    date is not before the since-date. *)
Lemma since_filter_naive (d : ThreadData) :
  (forall s, since_dt world self = Some s -> utcoffset s = None) ->
  (forall p, parse_date world (Some (t_date_posted d)) = Some p -> utcoffset p = None) ->
  exists keep,
    Spec.retain world self (Extracted d) = Ok keep
    /\ (keep = true <->
        since_dt world self = None
        \/ parse_date world (Some (t_date_posted d)) = None
        \/ exists s p, since_dt world self = Some s
                       /\ parse_date world (Some (t_date_posted d)) = Some p
                       /\ wall s <= wall p).
Proof.
  intros Hs Hp. unfold Spec.retain, _is_after_since.
  cbn [has_error get_error get_date_posted].
  destruct (since_dt world self) as [s|] eqn:Es.
  2:{ exists true. split; [done|]. split; [by left|done]. }
  destruct (parse_date world (Some (t_date_posted d))) as [p|] eqn:Ep.
  2:{ exists true. split; [done|]. split; [by (right; left)|done]. }
  rewrite (ge_naive p s (Hp p eq_refl) (Hs s eq_refl)).
  exists (wall s <=? wall p). split; [done|]. rewrite Z.leb_le. split.
  - intros H. right. right. by exists s, p.
  - intros [H|[H|(s' & p' & [= <-] & [= <-] & H)]]; done.
Qed.

End SinceFilter.

(** The examples of the specification: with [--since 2023-06-01] the
    thread dated 2023-01-01 is dropped, the thread dated 2024-01-01 and
    the one whose date does not parse are kept, and so is an error
    record. *)
Lemma since_filter_examples :
  let self := ex_config 3 50 None None (Some "2023-06-01") in
  Spec.retain fixed_world self (extract_thread fixed_world self u_export) = Ok false
  /\ Spec.retain fixed_world self (extract_thread fixed_world self u_colors) = Ok true
  /\ Spec.retain fixed_world self (extract_thread fixed_world self u_undated) = Ok true
  /\ Spec.retain fixed_world self (extract_thread fixed_world self u_import) = Ok true.
Proof. repeat split; vm_compute; reflexivity. Qed.

(** C6, the failing case: with [--since 2023-06-01T00:00:00Z] the
    since-date is timezone-aware, the date of a thread is parsed back
    naive, and the comparison raises: the thread dated 2024-01-01 is not
    kept, the run ends with the exception, nothing is written and the
    browser is not released. *)
Theorem aware_since_date_raises :
  let self := ex_config 3 50 None None (Some "2023-06-01T00:00:00Z") in
  let failure := Exn "TypeError" "can't compare offset-naive and offset-aware datetimes" in
  since_dt fixed_world self = Some (aware jun_2023 0)
  /\ parse_date fixed_world (get_date_posted (extract_thread fixed_world self u_colors))
     = Some (naive jan_2024)
  /\ _is_after_since fixed_world self (extract_thread fixed_world self u_colors) = Raise failure
  /\ outcome (run_on fixed_world self [u_colors]) = Raise failure
  /\ Spec.writes (events (run_on fixed_world self [u_colors])) = []
  /\ Spec.quits (events (run_on fixed_world self [u_colors])) = 0%nat.
Proof. repeat split; vm_compute; reflexivity. Qed.

(** The listing without thread links: discovery stops after three stale
    rounds with no URL, and [run] returns without a write or a quit. *)
Lemma empty_listing_run :
  run empty_world default_config 3 0%nat = Some {| events := []; outcome := Ok [] |}.
Proof. vm_compute. reflexivity. Qed.

(** ** White space *)

Section Whitespace.

#[local] Arguments String.append !_ _ / : simpl nomatch.

Lemma drop_while_starts_clean (s : string) :
  Spec.starts_clean (drop_while is_space s) = true.
Proof.
  induction s as [|c s IH]; simpl; [done|].
  destruct (is_space c) eqn:E; [done|]. simpl. by rewrite E.
Qed.

Lemma drop_while_fixed (s : string) :
  Spec.starts_clean s = true -> drop_while is_space s = s.
Proof. destruct s as [|c s]; simpl; [done|]. by destruct (is_space c). Qed.

Lemma starts_clean_append (a b : string) :
  a <> EmptyString -> Spec.starts_clean (a +:+ b) = Spec.starts_clean a.
Proof. by destruct a. Qed.

Lemma rev_nonempty (s : string) : s <> EmptyString -> rev s <> EmptyString.
Proof.
  intros H E. apply H. apply (f_equal String.length) in E.
  rewrite length_rev in E. by destruct s.
Qed.

Lemma strip_fixed (s : string) :
  Spec.starts_clean s = true -> Spec.starts_clean (rev s) = true -> strip s = s.
Proof.
  intros H1 H2. unfold strip.
  by rewrite (drop_while_fixed s H1), (drop_while_fixed (rev s) H2), rev_involutive.
Qed.

(** A stripped text has no white space at either end. *)
Lemma strip_clean (s : string) :
  Spec.starts_clean (strip s) = true /\ Spec.starts_clean (rev (strip s)) = true.
Proof.
  unfold strip. set (t := drop_while is_space s).
  set (u := drop_while is_space (rev t)).
  split; [|rewrite rev_involutive; apply drop_while_starts_clean].
  destruct u as [|c u'] eqn:Hu; [done|].
  assert (t = rev u +:+ rev (take_while is_space (rev t))) as Ht.
  { rewrite <- (rev_involutive t) at 1.
    rewrite (take_drop_while is_space (rev t)) at 1.
    fold u. by rewrite rev_append. }
  rewrite <- Hu. rewrite <- (starts_clean_append (rev u) (rev (take_while is_space (rev t)))).
  - rewrite <- Ht. apply drop_while_starts_clean.
  - apply rev_nonempty. by rewrite Hu.
Qed.

Lemma strip_idempotent (s : string) : strip (strip s) = strip s.
Proof. apply strip_fixed; apply strip_clean. Qed.

Lemma strip_empty : strip EmptyString = EmptyString.
Proof. reflexivity. Qed.

Lemma truthy_strip (s : string) : truthy_str (strip s) = true -> truthy_str s = true.
Proof. by destruct s. Qed.

(** Joining non-empty texts that are clean at both ends gives a text
    that is clean at both ends. *)
Lemma join_clean (sep : string) (l : list string) :
  Forall (fun x => x <> EmptyString
                   /\ Spec.starts_clean x = true
                   /\ Spec.starts_clean (rev x) = true) l ->
  Spec.starts_clean (join sep l) = true
  /\ Spec.starts_clean (rev (join sep l)) = true
  /\ (l <> [] -> join sep l <> EmptyString).
Proof.
  unfold join. induction l as [|x l IH]; intros H; [done|].
  apply Forall_cons in H as [(Hne & Hhead & Hlast) H].
  destruct l as [|y l]; [done|].
  destruct (IH H) as (_ & IHlast & IHne).
  cbn [String.concat].
  split; [by rewrite starts_clean_append|].
  split.
  - rewrite !rev_append, append_assoc, starts_clean_append; [done|].
    apply rev_nonempty. by apply IHne.
  - intros _. by destruct x.
Qed.

Lemma stripped_strings_clean (e : Element) :
  Forall (fun x => x <> EmptyString
                   /\ Spec.starts_clean x = true
                   /\ Spec.starts_clean (rev x) = true) (stripped_strings e).
Proof.
  unfold stripped_strings. apply List.Forall_forall. intros x Hx.
  apply filter_In in Hx as [Hx Htruthy].
  apply in_map_iff in Hx as (raw & <- & _).
  split; [by destruct (strip raw)|]. apply strip_clean.
Qed.

(** The text of an element, joined with or without line feeds, has no
    white space at either end. *)
Lemma get_text_trimmed (e : Element) :
  strip (get_text e) = get_text e /\ strip (get_text_lines e) = get_text_lines e.
Proof.
  split; apply strip_fixed; by apply join_clean, stripped_strings_clean.
Qed.

End Whitespace.

(** ** More of the field extractors *)

Section FieldExtractors.

Variable world : World.
Variable self : Config.

(** The reply loop leaves every other field of the thread alone. *)
Lemma add_reply_keeps (d : ThreadData) (r : Reply) :
  let d' := add_reply d r in
  t_url d' = t_url d /\ t_title d' = t_title d /\ t_author d' = t_author d
  /\ t_date_posted d' = t_date_posted d /\ t_description d' = t_description d
  /\ t_tags d' = t_tags d /\ t_views d' = t_views d
  /\ t_replies_count d' = t_replies_count d /\ t_status d' = t_status d
  /\ t_scraped_at d' = t_scraped_at d.
Proof. unfold add_reply. by destruct (r_is_accepted r). Qed.

Lemma reply_loop_keeps (replies : list Reply) : forall d : ThreadData,
  let d' := fold_left add_reply replies d in
  t_url d' = t_url d /\ t_title d' = t_title d /\ t_author d' = t_author d
  /\ t_date_posted d' = t_date_posted d /\ t_description d' = t_description d
  /\ t_tags d' = t_tags d /\ t_views d' = t_views d
  /\ t_replies_count d' = t_replies_count d /\ t_status d' = t_status d
  /\ t_scraped_at d' = t_scraped_at d.
Proof.
  induction replies as [|r rs IH]; intros d; simpl; [done|].
  destruct (IH (add_reply d r)) as (H1 & H2 & H3 & H4 & H5 & H6 & H7 & H8 & H9 & H10).
  destruct (add_reply_keeps d r) as (K1 & K2 & K3 & K4 & K5 & K6 & K7 & K8 & K9 & K10).
  repeat split; congruence.
Qed.

Lemma thread_of_fields (url : string) (soup : Soup) :
  let d := thread_of world self url soup in
  t_url d = url
  /\ t_title d = _extract_title self soup
  /\ t_author d = _extract_author self soup
  /\ t_date_posted d = _extract_post_date world self soup
  /\ t_description d = _extract_description self soup
  /\ t_tags d = _extract_tags self soup
  /\ t_views d = _extract_stat soup "view"
  /\ t_comments d = _extract_replies world self soup.
Proof.
  unfold thread_of. cbn [t_url t_title t_author t_date_posted t_description t_tags
                         t_views t_comments set_replies_count].
  match goal with
  | |- context [fold_left add_reply ?rs ?d0] =>
      pose proof (reply_loop_keeps rs d0) as H;
      pose proof (reply_loop_comments rs d0) as Hc
  end.
  cbv zeta in H. simpl in H, Hc.
  destruct H as (H1 & H2 & H3 & H4 & H5 & H6 & H7 & _).
  by rewrite H1, H2, H3, H4, H5, H6, H7, Hc.
Qed.

Lemma select_text_loop_cases (soup : Element) (selectors : list (option string)) :
  select_text_loop soup selectors = EmptyString
  \/ exists el, select_text_loop soup selectors = get_text el.
Proof.
  induction selectors as [|sel rest IH]; simpl; [by left|].
  destruct sel as [s|]; [|done].
  destruct (negb (truthy_str s)); [done|].
  destruct (select_one soup s) as [el|]; [|done].
  destruct (truthy_str (get_text el)); [|done].
  right. by exists el.
Qed.

Lemma select_text_trimmed (soup : Soup) (c : option SelectorConfig) :
  strip (_select_text soup c) = _select_text soup c.
Proof.
  unfold _select_text.
  destruct (select_text_loop_cases (root soup) (as_list c)) as [->|[el ->]]; [done|].
  apply get_text_trimmed.
Qed.

Lemma description_loop_trimmed (soup : Element) (selectors : list string) :
  strip (description_loop soup selectors) = description_loop soup selectors.
Proof.
  induction selectors as [|sel rest IH]; simpl; [done|].
  destruct (select_one soup sel) as [el|]; [|done]. apply get_text_trimmed.
Qed.

(** The replies are the dictionaries of the containers that have a body
    or an author, in document order. *)
Lemma replies_loop_spec (items : list Element) : forall acc : list Reply,
  fold_left
    (fun replies item =>
       let reply := reply_of world self item in
       if truthy_str (r_text reply) || truthy_str (r_author reply)
       then replies ++ [reply] else replies)
    items acc
  = acc ++ List.filter Spec.substantial (List.map (reply_of world self) items).
Proof.
  induction items as [|item items IH]; intros acc; cbn [fold_left List.map List.filter].
  - by rewrite app_nil_r.
  - rewrite IH. cbv zeta. unfold Spec.substantial at 2.
    destruct (truthy_str (r_text (reply_of world self item))
              || truthy_str (r_author (reply_of world self item)));
      [by rewrite <- app_assoc|done].
Qed.

Lemma extract_replies_spec (soup : Soup) :
  _extract_replies world self soup
  = List.filter Spec.substantial
      (List.map (reply_of world self)
         (select (root soup) (default ".threaded-reply-item" (sel_reply_container self)))).
Proof. unfold _extract_replies. by rewrite replies_loop_spec. Qed.

Lemma filter_length_le {A} (p : A -> bool) (l : list A) :
  (List.length (List.filter p l) <= List.length l)%nat.
Proof. induction l as [|x l IH]; simpl; [done|]. destruct (p x); simpl; lia. Qed.

(** X1: [_extract_replies] returns, in document order, the reply of
    every container that has a body or an author and of no other: a
    container with neither is dropped, so there are never more replies
    than containers. *)
Theorem replies_are_the_substantial_containers (soup : Soup) :
  let items := select (root soup) (default ".threaded-reply-item" (sel_reply_container self)) in
  let replies := _extract_replies world self soup in
  replies = List.filter Spec.substantial (List.map (reply_of world self) items)
  /\ Forall (fun r => r_text r <> EmptyString \/ r_author r <> EmptyString) replies
  /\ (List.length replies <= List.length items)%nat.
Proof.
  intros items replies. subst replies. rewrite extract_replies_spec. fold items.
  split; [done|]. split.
  - apply List.Forall_forall. intros r Hr. apply filter_In in Hr as [_ Hr].
    unfold Spec.substantial in Hr. apply orb_true_iff in Hr as [Hr|Hr].
    + left. by destruct (r_text r).
    + right. by destruct (r_author r).
  - etransitivity; [apply filter_length_le|]. by rewrite length_map.
Qed.

(** X2: the tags of a page have no duplicates, none is empty, and a
    text is a tag exactly when it is the non-empty text of an element
    the tag selector matches. *)
Theorem tags_are_distinct_nonempty_texts (soup : Soup) :
  let tags := _extract_tags self soup in
  List.NoDup tags
  /\ forall t, In t tags <->
       t <> EmptyString
       /\ exists el, In el (select (root soup) (tag_selector self)) /\ get_text el = t.
Proof.
  intros tags. subst tags. unfold _extract_tags.
  rewrite tags_loop_spec. simpl. rewrite filter_unlisted_nil.
  split; [apply first_seen_NoDup|].
  intros t. rewrite first_seen_In, filter_In, in_map_iff. split.
  - intros [(el & <- & Hel) Ht]. split; [by destruct (get_text el)|]. by exists el.
  - intros [Ht (el & Hel & <-)]. split; [by exists el|]. by destruct (get_text el).
Qed.

Lemma tags_come_from_elements (soup : Soup) (t : string) :
  In t (_extract_tags self soup) -> exists el, t = get_text el.
Proof.
  unfold _extract_tags. rewrite tags_loop_spec. simpl. rewrite filter_unlisted_nil.
  rewrite first_seen_In, filter_In, in_map_iff.
  intros [(el & <- & _) _]. by exists el.
Qed.

(** X3: no text field of an extracted thread carries white space at
    either end: stripping the title, the author, the description, a tag,
    or the author or body of a comment changes nothing. *)
Theorem extracted_texts_are_trimmed (url : string) (soup : Soup) :
  let d := thread_of world self url soup in
  strip (t_title d) = t_title d
  /\ strip (t_author d) = t_author d
  /\ strip (t_description d) = t_description d
  /\ Forall (fun t => strip t = t) (t_tags d)
  /\ Forall (fun r => strip (r_author r) = r_author r /\ strip (r_text r) = r_text r)
            (t_comments d).
Proof.
  intros d. subst d.
  destruct (thread_of_fields url soup) as (_ & -> & -> & _ & -> & -> & _ & ->).
  split; [|split; [|split; [|split]]].
  - unfold _extract_title.
    destruct (truthy_str (_select_text soup (sel_title self))); [apply select_text_trimmed|].
    destruct (find_title soup); [apply strip_idempotent|done].
  - unfold _extract_author.
    destruct (truthy_config (sel_author self)).
    + destruct (truthy_str (_select_text soup (sel_author self)));
        [apply select_text_trimmed|].
      destruct (select_one (root soup) ".author-info"); [apply get_text_trimmed|done].
    + simpl. destruct (select_one (root soup) ".author-info"); [apply get_text_trimmed|done].
  - apply description_loop_trimmed.
  - apply List.Forall_forall. intros t Ht.
    destruct (tags_come_from_elements soup t Ht) as [el ->]. apply get_text_trimmed.
  - rewrite extract_replies_spec. apply List.Forall_forall. intros r Hr.
    apply filter_In in Hr as [Hr _]. apply in_map_iff in Hr as (item & <- & _).
    unfold reply_of. cbn [r_author r_text]. split; [apply strip_idempotent|].
    destruct (select_one item _); [apply get_text_trimmed|done].
Qed.

End FieldExtractors.

(** ** Dates, counts, status and badges *)

Section DatesAndCounts.

Variable world : World.
Variable self : Config.

(** X4: [parse_date] looks at the text without its surrounding white
    space: a text and its stripped form parse alike, and a text that is
    all white space (or empty) parses to [None] whatever the library. *)
Theorem parse_date_ignores_surrounding_space (value : string) :
  parse_date world (Some (strip value)) = parse_date world (Some value)
  /\ (strip value = EmptyString -> parse_date world (Some value) = None).
Proof.
  unfold parse_date. cbv zeta. split.
  - rewrite strip_idempotent.
    destruct (truthy_str (strip value)) eqn:Hs.
    + by rewrite (truthy_strip value Hs).
    + by destruct (truthy_str value).
  - intros ->. by destruct (truthy_str value).
Qed.

Lemma int_onto_nonneg (s : string) : forall acc, 0 <= acc -> 0 <= int_onto acc s.
Proof.
  induction s as [|c s IH]; intros acc H; simpl; [done|].
  apply IH. lia.
Qed.

Lemma grouped_int_nonneg (text : string) (n : Z) : grouped_int text = Some n -> 0 <= n.
Proof.
  unfold grouped_int. destruct (search_grouped_number text); simpl; [|done].
  intros [= <-]. by apply int_onto_nonneg.
Qed.

Lemma stat_loop_nonneg (soup : Element) (selectors : list string) :
  0 <= stat_loop soup selectors.
Proof.
  induction selectors as [|sel rest IH]; simpl; [done|].
  destruct (select_one soup sel) as [el|]; [|done].
  destruct (grouped_int (get_text el)) as [n|] eqn:E; [|done].
  by apply (grouped_int_nonneg _ _ E).
Qed.

Lemma extract_stat_nonneg (soup : Soup) (keyword : string) : 0 <= _extract_stat soup keyword.
Proof.
  unfold _extract_stat.
  destruct (select_one (root soup) _) as [el|]; [|apply stat_loop_nonneg].
  destruct (grouped_int _) as [n|] eqn:E; [|apply stat_loop_nonneg].
  by apply (grouped_int_nonneg _ _ E).
Qed.

Lemma or_int_nonneg (a b : Z) : 0 <= a -> 0 <= b -> 0 <= or_int a b.
Proof. unfold or_int. by destruct (truthy_int a). Qed.

Lemma thread_of_counts (url : string) (soup : Soup) :
  let d := thread_of world self url soup in
  t_replies_count d
  = or_int (_extract_stat soup "repl") (len (_extract_replies world self soup))
  /\ t_likes d = or_int (_extract_stat soup "like") (_extract_stat soup "kudo").
Proof.
  unfold thread_of. cbn [t_replies_count t_likes set_replies_count].
  match goal with
  | |- context [fold_left add_reply ?rs ?d0] =>
      pose proof (reply_loop_keeps rs d0) as H;
      pose proof (reply_loop_comments rs d0) as Hc;
      pose proof (reply_loop_likes rs d0) as Hl
  end.
  cbv zeta in H. simpl in H, Hc, Hl.
  destruct H as (_ & _ & _ & _ & _ & _ & _ & H8 & _).
  by rewrite H8, Hc, Hl.
Qed.

(** X5: the counts of an extracted thread are never negative: its
    views, replies count and likes, and the likes of each comment. *)
Theorem extracted_counts_are_nonnegative (url : string) (soup : Soup) :
  let d := thread_of world self url soup in
  0 <= t_views d /\ 0 <= t_replies_count d /\ 0 <= t_likes d
  /\ Forall (fun r => 0 <= r_likes r) (t_comments d).
Proof.
  intros d. subst d.
  destruct (thread_of_counts url soup) as [-> ->].
  destruct (thread_of_fields world self url soup) as (_ & _ & _ & _ & _ & _ & -> & ->).
  split; [apply extract_stat_nonneg|].
  split; [apply or_int_nonneg; [apply extract_stat_nonneg|unfold len; lia]|].
  split; [apply or_int_nonneg; apply extract_stat_nonneg|].
  rewrite extract_replies_spec. apply List.Forall_forall. intros r Hr.
  apply filter_In in Hr as [Hr _]. apply in_map_iff in Hr as (item & <- & _).
  unfold reply_of. cbn [r_likes].
  destruct (select_one item _); [|done].
  destruct (search_number _); [|done]. by apply int_onto_nonneg.
Qed.

(** X6: [replies_count] is the replies stat of the page when that is
    not zero, and otherwise the number of replies parsed from it; so it
    is zero only for a page with neither. *)
Theorem replies_count_falls_back_to_parsed_replies (url : string) (soup : Soup) :
  let d := thread_of world self url soup in
  let stat := _extract_stat soup "repl" in
  t_replies_count d = (if stat =? 0 then len (t_comments d) else stat)
  /\ (t_replies_count d = 0 <-> stat = 0 /\ t_comments d = []).
Proof.
  intros d stat. subst d.
  destruct (thread_of_counts url soup) as [-> _].
  destruct (thread_of_fields world self url soup) as (_ & _ & _ & _ & _ & _ & _ & ->).
  fold stat. unfold or_int, truthy_int.
  destruct (stat =? 0) eqn:E; simpl.
  - apply Z.eqb_eq in E. split; [done|]. unfold len. split.
    + intros H. split; [done|]. destruct (_extract_replies world self soup); [done|].
      simpl in H. lia.
    + by intros [_ ->].
  - apply Z.eqb_neq in E. split; [done|]. split; [done|]. by intros [? _].
Qed.

(** Where the posted date of a page comes from: the [datetime]
    attribute of the first match of the date selector or, when that
    gives nothing, of the first [time[datetime]] element. *)
Lemma post_date_cases (soup : Soup) :
  let first := select_one (root soup) (default "time[datetime]" (sel_date self)) in
  let fallback := select_one (root soup) "time[datetime]" in
  let source := fun el => first = Some el \/ fallback = Some el in
  let date := _extract_post_date world self soup in
  (exists el raw parsed,
     source el /\ get el "datetime" = Some raw
     /\ parse_date world (Some raw) = Some parsed
     /\ date = lib_strftime world parsed)
  \/ (((exists el, source el /\ get el "datetime" = Some date /\ date <> EmptyString)
       \/ (date = EmptyString
           /\ forall el, source el -> get_truthy el "datetime" = None))
      /\ parse_date world (Some date) = None).
Proof.
  intros first fallback source date.
  assert (forall el : Element,
            source el ->
            match get_truthy el "datetime" with
            | Some dt =>
                (exists raw parsed,
                   get el "datetime" = Some raw
                   /\ parse_date world (Some raw) = Some parsed
                   /\ normalize_date world dt = lib_strftime world parsed)
                \/ (get el "datetime" = Some (normalize_date world dt)
                    /\ normalize_date world dt <> EmptyString
                    /\ parse_date world (Some (normalize_date world dt)) = None)
            | None => True
            end) as Hdated.
  { intros el _. unfold get_truthy.
    destruct (get el "datetime") as [dt|] eqn:Hget; [|done].
    destruct (truthy_str dt) eqn:Ht; [|done]. unfold normalize_date.
    destruct (parse_date world (Some dt)) as [parsed|] eqn:Hp.
    - left. by exists dt, parsed.
    - right. split; [done|]. split; [by destruct dt|done]. }
  subst date. unfold _extract_post_date, dated. fold first. fold fallback.
  destruct first as [e1|] eqn:E1.
  - pose proof (Hdated e1 (or_introl eq_refl)) as H1.
    destruct (get_truthy e1 "datetime") as [dt1|] eqn:G1; cbn [option_map].
    { destruct H1 as [(raw & parsed & Hr & Hp & Hn)|(Hr & Hne & Hp)].
      - left. exists e1, raw, parsed. by repeat split; [left|..].
      - right. split; [|done]. left. exists e1. by repeat split; [left|..]. }
    destruct fallback as [e2|] eqn:E2.
    + pose proof (Hdated e2 (or_intror eq_refl)) as H2.
      destruct (get_truthy e2 "datetime") as [dt2|] eqn:G2; cbn [option_map].
      { destruct H2 as [(raw & parsed & Hr & Hp & Hn)|(Hr & Hne & Hp)].
        - left. exists e2, raw, parsed. by repeat split; [right|..].
        - right. split; [|done]. left. exists e2. by repeat split; [right|..]. }
      right. split; [|done]. right. split; [done|].
      intros el [[= <-]|[= <-]]; done.
    + right. split; [|done]. right. split; [done|].
      intros el [[= <-]|?]; done.
  - destruct fallback as [e2|] eqn:E2.
    + pose proof (Hdated e2 (or_intror eq_refl)) as H2.
      destruct (get_truthy e2 "datetime") as [dt2|] eqn:G2; cbn [option_map].
      { destruct H2 as [(raw & parsed & Hr & Hp & Hn)|(Hr & Hne & Hp)].
        - left. exists e2, raw, parsed. by repeat split; [right|..].
        - right. split; [|done]. left. exists e2. by repeat split; [right|..]. }
      right. split; [|done]. right. split; [done|].
      intros el [?|[= <-]]; done.
    + right. split; [|done]. right. split; [done|]. intros el [?|?]; done.
Qed.

(** With a since-date that has no UTC offset, and a library whose
    printed dates never read back with one, the since-date filter
    answers for the record of every URL. *)
Lemma naive_dates_answer (url : string) :
  (forall s, since_dt world self = Some s -> utcoffset s = None) ->
  (forall d p, parse_date world (Some (lib_strftime world d)) = Some p ->
               utcoffset p = None) ->
  Spec.filter_answers world self url.
Proof.
  intros Hsince Hprinted. unfold Spec.filter_answers, extract_thread.
  destruct (open_thread world url) as [soup|err].
  2:{ exists true. apply failed_is_retained. }
  destruct (since_filter_naive world self (thread_of world self url soup) Hsince)
    as (keep & Hkeep & _); [|by exists keep].
  intros p Hp.
  assert (t_date_posted (thread_of world self url soup) = _extract_post_date world self soup)
    as Hdate by apply thread_of_fields.
  rewrite Hdate in Hp.
  destruct (post_date_cases soup) as [(el & raw & parsed & _ & _ & _ & Hd)|[_ Hnone]].
  - rewrite Hd in Hp. by apply (Hprinted parsed).
  - cbv zeta in Hnone. congruence.
Qed.

(** X7: the posted date of an extracted thread is read from the first
    match of the date selector or of [time[datetime]]: it is either the
    date the library parsed from the [datetime] attribute of that
    element, printed in the one format of the program, or that
    attribute itself, verbatim, when it does not parse (the empty
    string when neither element has a non-empty attribute); a thread of
    the second kind is kept by the since-date filter whatever the
    since-date. *)
Theorem unparsed_date_is_kept_verbatim (url : string) (soup : Soup) :
  let d := thread_of world self url soup in
  let first := select_one (root soup) (default "time[datetime]" (sel_date self)) in
  let fallback := select_one (root soup) "time[datetime]" in
  let source := fun el => first = Some el \/ fallback = Some el in
  (exists el raw parsed,
     source el /\ get el "datetime" = Some raw
     /\ parse_date world (Some raw) = Some parsed
     /\ t_date_posted d = lib_strftime world parsed)
  \/ (((exists el, source el /\ get el "datetime" = Some (t_date_posted d)
                   /\ t_date_posted d <> EmptyString)
       \/ (t_date_posted d = EmptyString
           /\ forall el, source el -> get_truthy el "datetime" = None))
      /\ parse_date world (Some (t_date_posted d)) = None
      /\ Spec.retain world self (Extracted d) = Ok true).
Proof.
  intros d first fallback source.
  assert (t_date_posted d = _extract_post_date world self soup) as Hdate
    by apply thread_of_fields.
  assert (parse_date world (Some (t_date_posted d)) = None ->
          Spec.retain world self (Extracted d) = Ok true) as Hkeep.
  { intros Hp. unfold Spec.retain, _is_after_since.
    cbn [has_error get_error get_date_posted].
    destruct (since_dt world self); [|done]. by rewrite Hp. }
  revert Hkeep. rewrite Hdate. intros Hkeep.
  destruct (post_date_cases soup) as [H|[H Hnone]]; [by left|].
  right. split; [exact H|]. split; [exact Hnone|]. by apply Hkeep.
Qed.

(** X8: the status is one of [resolved], [unresolved] and [unknown],
    and a status label that holds a resolved term, in any letter case,
    makes it [resolved] whatever the other labels say. *)
Theorem resolved_label_takes_priority (soup : Soup) :
  (_extract_status self soup = "resolved"
   \/ _extract_status self soup = "unresolved"
   \/ _extract_status self soup = "unknown")
  /\ forall el term,
       In el (select (root soup) (status_label_selector self)) ->
       In term (resolved_terms self) ->
       contains (lower (get_text el)) (lower term) = true ->
       _extract_status self soup = "resolved".
Proof.
  unfold _extract_status. split.
  - destruct (existsb _ _); [by left|].
    destruct (existsb _ _); [by right; left|].
    destruct (select_one _ _); [by left|by right; right].
  - intros el term Hel Hterm Hin.
    assert (existsb (any_term_in (List.map lower (resolved_terms self)))
              (List.map (fun e => lower (get_text e))
                 (select (root soup) (status_label_selector self))) = true) as ->; [|done].
    apply existsb_exists. exists (lower (get_text el)). split.
    + apply in_map_iff. by exists el.
    + unfold any_term_in. apply existsb_exists. exists (lower term). split; [|done].
      apply in_map_iff. by exists term.
Qed.

End DatesAndCounts.

(** ** The badge at the end of a reply author *)

Section Badges.

Variable world : World.
Variable self : Config.

#[local] Arguments String.append !_ _ / : simpl nomatch.

Lemma list_ascii_of_append (a b : string) :
  list_ascii_of_string (a +:+ b) = list_ascii_of_string a ++ list_ascii_of_string b.
Proof. induction a as [|c a IH]; simpl; [done|]. by rewrite IH. Qed.

Lemma list_ascii_length (s : string) :
  List.length (list_ascii_of_string s) = String.length s.
Proof. induction s as [|c s IH]; simpl; [done|]. by rewrite IH. Qed.

Lemma drop_end_append (a b : string) : drop_end (String.length b) (a +:+ b) = a.
Proof.
  unfold drop_end.
  rewrite rev_append, list_ascii_of_append, <- (length_rev b), <- list_ascii_length.
  rewrite drop_app_length, string_of_list_ascii_of_string. apply rev_involutive.
Qed.

Lemma after_dollar_one_line_end (a b : string) :
  b <> EmptyString -> Spec.one_line b = true -> after_dollar (a +:+ b) = EmptyString.
Proof.
  intros Hne Hb. unfold after_dollar, rev. rewrite rev_onto_twice.
  by destruct (rev_onto_head b (rev_onto a EmptyString) Hne Hb) as (c & r & -> & ->).
Qed.

Lemma newline_is_space (c : ascii) : is_newline c = true -> is_space c = true.
Proof.
  unfold is_newline, is_space. intros H. apply Nat.eqb_eq in H. by rewrite H.
Qed.

Lemma before_dollar_clean_end (s : string) :
  Spec.starts_clean (rev s) = true -> before_dollar s = s.
Proof.
  unfold before_dollar. destruct (rev s) as [|c r]; [done|]. simpl.
  destruct (is_newline c) eqn:E; [|done].
  by rewrite (newline_is_space c E).
Qed.

(** The pattern removes the badge that ends the text, and only it. *)
Lemma sub_suffix_badge (name badge : string) :
  In badge badge_suffixes -> sub_suffix badge_suffixes (name +:+ badge) = name.
Proof.
  intros Hin. unfold sub_suffix.
  assert (badge <> EmptyString /\ Spec.one_line badge = true) as [Hne Hline].
  { simpl in Hin. intuition (subst; done). }
  rewrite (before_dollar_one_line_end name badge Hne Hline).
  rewrite (after_dollar_one_line_end name badge Hne Hline).
  assert (List.find (fun a => endswith (name +:+ badge) a) badge_suffixes = Some badge) as ->.
  { unfold endswith. rewrite rev_append. generalize (rev name). intros x.
    simpl in Hin.
    destruct Hin as [<-|[<-|[<-|[<-|[<-|[]]]]]]; vm_compute; by destruct x. }
  by rewrite drop_end_append, append_nil_r.
Qed.

Lemma sub_suffix_no_badge (s : string) :
  Spec.starts_clean (rev s) = true ->
  Forall (fun badge => endswith s badge = false) badge_suffixes ->
  sub_suffix badge_suffixes s = s.
Proof.
  intros Hclean Hnone. unfold sub_suffix. rewrite (before_dollar_clean_end s Hclean).
  destruct (List.find (fun a => endswith s a) badge_suffixes) as [a|] eqn:E; [|done].
  apply find_some in E as [Hin Hend].
  rewrite List.Forall_forall in Hnone. by rewrite (Hnone a Hin) in Hend.
Qed.

(** X9: when the text of the author element of a reply ends in one of
    the five role badges, the reply author is that text without the
    badge, stripped; when it ends in none of them, the author is the
    text as it is. *)
Theorem reply_author_loses_its_badge (item el : Element)
  (Hel : select_one item (default ".author-info" (sel_reply_author self)) = Some el) :
  (forall name badge,
     get_text el = name +:+ badge -> In badge badge_suffixes ->
     r_author (reply_of world self item) = strip name)
  /\ (Forall (fun badge => endswith (get_text el) badge = false) badge_suffixes ->
      r_author (reply_of world self item) = get_text el).
Proof.
  unfold reply_of. cbn [r_author]. rewrite Hel. split.
  - intros name badge -> Hin. by rewrite sub_suffix_badge.
  - intros Hnone. rewrite sub_suffix_no_badge; [apply get_text_trimmed| |done].
    by apply join_clean, stripped_strings_clean.
Qed.

End Badges.

(** ** Limits and the log of URL discovery *)

Section DiscoveryLimits.

Variable world : World.
Variable self : Config.

Lemma collect_loop_stops (fuel : nat) :
  forall (st : Discovery world) (log : list RoundLog) (c : Collected world),
  collect_loop world self fuel st log = Some c ->
  decide_stop world self (final c) = inr (reason c, returned c).
Proof.
  induction fuel as [|fuel IH]; intros st log c Hc; [done|].
  cbn [collect_loop] in Hc.
  destruct (scan world self st) as [st1 new].
  destruct (decide_stop world self st1) as [st2|[why out]] eqn:Hdec.
  - by apply IH in Hc.
  - by injection Hc as <-.
Qed.

Lemma decide_stop_under_limits (st st2 : Discovery world) :
  decide_stop world self st = inl st2 ->
  reached (test_limit self) (len (urls st)) = false
  /\ reached (max_pages self) (click_count st) = false
  /\ click_count st2 = click_count st + 1
  /\ urls st2 = urls st.
Proof.
  unfold decide_stop.
  destruct (reached (test_limit self) (len (urls st))); [done|].
  destruct (reached (max_pages self) (click_count st)); [done|].
  destruct (max_stale_rounds self <=? stale_rounds st); [done|].
  destruct (load_more world (page st)); [|done].
  by intros [= <-].
Qed.

Lemma reached_false (n value : Z) :
  0 < n -> reached (Some n) value = false -> value < n.
Proof.
  unfold reached, truthy_int. intros Hn H.
  destruct (n =? 0) eqn:E; [lia|]. simpl in H. lia.
Qed.

Lemma returned_under_test_limit
  (fuel : nat) (start : Page world) (c : Collected world) (n : Z)
  (Hc : collect world self fuel start = Some c)
  (Hn : test_limit self = Some n)
  (Hpos : 0 < n) :
  len (returned c) <= n /\ (reason c = TestLimit <-> len (returned c) = n).
Proof.
  apply collect_loop_stops in Hc. unfold decide_stop in Hc. rewrite Hn in Hc.
  destruct (reached (Some n) (len (urls (final c)))) eqn:Ht.
  - injection Hc as Hwhy Hout. simpl in Hout.
    apply reached_true in Ht as (m & [= <-] & _ & Hle).
    destruct (slice_to_positive (urls (final c)) n Hpos Hle) as [_ Hlen].
    rewrite <- Hout, Hlen, <- Hwhy. by split.
  - apply (reached_false n _ Hpos) in Ht.
    assert (returned c = urls (final c) /\ reason c <> TestLimit) as [-> Hwhy].
    { destruct (reached (max_pages self) (click_count (final c)));
        [by injection Hc as <- <-|].
      destruct (max_stale_rounds self <=? stale_rounds (final c));
        [by injection Hc as <- <-|].
      destruct (load_more world (page (final c))); [done|by injection Hc as <- <-]. }
    split; [lia|]. split; [done|lia].
Qed.

(** X10: with a test limit set (positive, as [main] sets it), discovery
    never returns more URLs than the limit, and returns exactly that
    many when, and only when, the limit is why it stopped. *)
Theorem test_limit_caps_discovery
  (fuel : nat) (start : Page world) (c : Collected world) (n : Z)
  (Hc : collect world self fuel start = Some c)
  (Hn : test_limit self = Some n)
  (Hpos : 0 < n) :
  len (returned c) <= n /\ (reason c = TestLimit <-> len (returned c) = n).
Proof. exact (returned_under_test_limit fuel start c n Hc Hn Hpos). Qed.

Lemma scan_keeps_clicks (st : Discovery world) :
  click_count (fst (scan world self st)) = click_count st.
Proof.
  pose proof (scan_accounting world self st) as H.
  destruct (scan world self st) as [st1 new]. simpl. tauto.
Qed.

Lemma clicks_stay_under_limit (m : Z) (Hm : max_pages self = Some m) (Hpos : 0 < m)
  (fuel : nat) :
  forall (st : Discovery world) (log : list RoundLog) (c : Collected world),
  collect_loop world self fuel st log = Some c ->
  click_count st <= m ->
  click_count st <= click_count (final c) <= m.
Proof.
  induction fuel as [|fuel IH]; intros st log c Hc Hle; [done|].
  cbn [collect_loop] in Hc.
  pose proof (scan_keeps_clicks st) as Hclicks.
  destruct (scan world self st) as [st1 new]. simpl in Hclicks.
  destruct (decide_stop world self st1) as [st2|[why out]] eqn:Hdec.
  - apply decide_stop_under_limits in Hdec as (_ & Hmax & Hst2 & _).
    rewrite Hm in Hmax. apply (reached_false m _ Hpos) in Hmax.
    apply IH in Hc; lia.
  - injection Hc as <-. simpl. lia.
Qed.

Lemma page_limit_terminates (m : Z) (Hm : max_pages self = Some m) (Hpos : 0 < m)
  (j : nat) :
  forall (fuel : nat) (st : Discovery world) (log : list RoundLog),
  Z.of_nat j = m - click_count st ->
  (j < fuel)%nat ->
  exists c, collect_loop world self fuel st log = Some c.
Proof.
  induction j as [|j IH]; intros fuel st log Hj Hfuel;
    (destruct fuel as [|fuel]; [lia|]); cbn [collect_loop];
    pose proof (scan_keeps_clicks st) as Hclicks;
    destruct (scan world self st) as [st1 new]; simpl in Hclicks;
    destruct (decide_stop world self st1) as [st2|[why out]] eqn:Hdec;
    try (by eexists);
    apply decide_stop_under_limits in Hdec as (_ & Hmax & Hst2 & _);
    rewrite Hm in Hmax; apply (reached_false m _ Hpos) in Hmax.
  - lia.
  - apply IH; lia.
Qed.

(** X11: with a page limit set (positive, as [main] sets it), discovery
    never makes more clicks than the limit, and it always halts: one
    round more than the limit is fuel enough, whatever the pages do. *)
Theorem page_limit_bounds_discovery (start : Page world) (m : Z)
  (Hm : max_pages self = Some m)
  (Hpos : 0 < m) :
  (forall fuel c, collect world self fuel start = Some c ->
                  0 <= click_count (final c) <= m)
  /\ (forall fuel, (Z.to_nat m < fuel)%nat ->
                   exists c, collect world self fuel start = Some c).
Proof.
  split.
  - intros fuel c Hc.
    apply (clicks_stay_under_limit m Hm Hpos) in Hc; simpl in *; lia.
  - intros fuel Hfuel. apply (page_limit_terminates m Hm Hpos (Z.to_nat m)); simpl; lia.
Qed.

Lemma total_new_app (a b : list RoundLog) :
  Spec.total_new (a ++ b) = Spec.total_new a + Spec.total_new b.
Proof.
  unfold Spec.total_new. induction a as [|x a IH]; simpl; [done|]. rewrite IH. lia.
Qed.

Lemma collect_loop_log (fuel : nat) :
  forall (st : Discovery world) (log : list RoundLog) (c : Collected world),
  collect_loop world self fuel st log = Some c ->
  exists tail entry,
    rounds c = log ++ tail
    /\ last tail = Some entry
    /\ Z.of_nat (List.length tail) = click_count (final c) - click_count st + 1
    /\ Spec.total_new tail = len (urls (final c)) - len (urls st)
    /\ log_total_urls entry = len (urls (final c))
    /\ log_click_count entry = click_count (final c)
    /\ log_stale_rounds entry = stale_rounds (final c).
Proof.
  induction fuel as [|fuel IH]; intros st log c Hc; [done|].
  cbn [collect_loop] in Hc.
  pose proof (scan_accounting world self st) as Hscan.
  destruct (scan world self st) as [st1 new].
  destruct Hscan as (Hnew & _ & _ & Hclicks).
  destruct (decide_stop world self st1) as [st2|[why out]] eqn:Hdec.
  - apply decide_stop_under_limits in Hdec as (_ & _ & Hst2 & Hurls).
    apply IH in Hc as (tail & entry & Hlog & Hlast & Hlen & Hsum & H1 & H2 & H3).
    eexists (_ :: tail), entry. rewrite Hlog, <- app_assoc.
    split; [done|]. split.
    { rewrite last_cons, Hlast. done. }
    split; [simpl; lia|].
    split; [|done].
    change (Spec.total_new (?x :: tail)) with (log_new_urls x + Spec.total_new tail).
    simpl. rewrite Hsum, Hurls. lia.
  - injection Hc as <-. eexists [_], _. simpl.
    split; [done|]. split; [done|]. split; [lia|].
    split; [|done]. unfold Spec.total_new. simpl. lia.
Qed.

(** X12: the rounds logged by discovery are one per scan, one more
    than the clicks made; their new-URL counts add up to the number of
    URLs collected; and the last record carries the final totals, of
    which the returned list never exceeds the URL count. *)
Theorem discovery_log_adds_up
  (fuel : nat) (start : Page world) (c : Collected world)
  (Hc : collect world self fuel start = Some c) :
  Z.of_nat (List.length (rounds c)) = click_count (final c) + 1
  /\ Spec.total_new (rounds c) = len (urls (final c))
  /\ exists entry,
       last (rounds c) = Some entry
       /\ log_total_urls entry = len (urls (final c))
       /\ log_click_count entry = click_count (final c)
       /\ log_stale_rounds entry = stale_rounds (final c)
       /\ len (returned c) <= log_total_urls entry.
Proof.
  unfold collect in Hc.
  pose proof (collect_loop_stops _ _ _ _ Hc) as Hstop.
  apply decide_stop_returns in Hstop as [k Hk].
  apply collect_loop_log in Hc as (tail & entry & Hlog & Hlast & Hlen & Hsum & H1 & H2 & H3).
  simpl in Hlog, Hlen, Hsum. rewrite Hlog.
  split; [lia|]. split; [unfold len in *; simpl in Hsum; lia|].
  exists entry. split; [done|]. split; [done|]. split; [done|]. split; [done|].
  rewrite H1, Hk. unfold len. rewrite length_take. lia.
Qed.

End DiscoveryLimits.

(** ** More of the run *)

Section RunInvariants.

Variable world : World.
Variable self : Config.

Lemma extract_thread_url (url : string) : thread_url (extract_thread world self url) = url.
Proof.
  unfold extract_thread. destruct (open_thread world url); [|done].
  simpl. apply thread_of_fields.
Qed.

Lemma events_snoc_extract (t : list event) (url : string) :
  Spec.extracted (t ++ [Extract url]) = Spec.extracted t ++ [url]
  /\ Spec.quits (t ++ [Extract url]) = Spec.quits t
  /\ Spec.writes (t ++ [Extract url]) = Spec.writes t.
Proof.
  rewrite extracted_app, quits_app, writes_app. simpl.
  by rewrite app_nil_r, Nat.add_0_r.
Qed.

Lemma events_snoc_save (t : list event) (saved : list Thread) (checkpoint : bool) :
  Spec.extracted (t ++ [Save saved checkpoint]) = Spec.extracted t
  /\ Spec.quits (t ++ [Save saved checkpoint]) = Spec.quits t
  /\ Spec.writes (t ++ [Save saved checkpoint]) = Spec.writes t ++ [(saved, checkpoint)].
Proof.
  rewrite extracted_app, quits_app, writes_app. simpl.
  by rewrite app_nil_r, Nat.add_0_r.
Qed.

(** One turn of the loop of [run]: what it adds to the events and to
    the accumulated records, however it ends. *)
Lemma run_step_effect (st : RunState) (index : Z) (url : string) :
  let thread := extract_thread world self url in
  let '(st1, raised) := run_step world self st index url in
  Spec.extracted (trace st1) = Spec.extracted (trace st) ++ [url]
  /\ Spec.quits (trace st1) = Spec.quits (trace st)
  /\ (exists ws, Spec.writes (trace st1) = Spec.writes (trace st) ++ ws
                 /\ Forall (fun w => w = (threads st1, true)) ws)
  /\ (exists more, threads st1 = threads st ++ more)
  /\ (raised = None ->
      Spec.retain world self thread = Ok (Spec.kept world self thread)
      /\ checkpoint_every self <> 0
      /\ threads st1 = threads st ++ (if Spec.kept world self thread then [thread] else [])
      /\ len (threads st1) + skipped_since st1 = len (threads st) + skipped_since st + 1).
Proof.
  intros thread. unfold run_step. cbv zeta. fold thread.
  change (if has_error thread then Ok true else _is_after_since world self thread)
    with (Spec.retain world self thread).
  unfold Spec.kept.
  destruct (events_snoc_extract (trace st) url) as (Ex & Eq & Ew).
  assert (forall l : list (list Thread * bool), l = l ++ []) as Hnil
    by (intros l; by rewrite app_nil_r).
  assert (forall l : list Thread, l = l ++ []) as Hnil'
    by (intros l; by rewrite app_nil_r).
  destruct (Spec.retain world self thread) as [keep|e].
  2:{ cbn [trace threads]. rewrite Ex, Eq, Ew.
      split; [done|]. split; [done|]. split; [by exists []|]. split; [by exists []|done]. }
  unfold mod_. destruct (checkpoint_every self =? 0) eqn:Hzero.
  { destruct keep; cbn [trace threads skipped_since]; rewrite Ex, Eq, Ew;
      (split; [done|]; split; [done|]; split; [by exists []|]; split; [by eexists|done]). }
  assert (checkpoint_every self <> 0) as Hevery by lia.
  destruct keep; destruct (index mod checkpoint_every self =? 0);
    cbn [trace threads skipped_since].
  - destruct (events_snoc_save (trace st ++ [Extract url]) (threads st ++ [thread]) true)
      as (-> & -> & ->).
    rewrite Ex, Eq, Ew.
    split; [done|]. split; [done|]. split; [eexists; split; [done|]; by constructor|].
    split; [by eexists|]. intros _. split; [done|]. split; [done|]. split; [done|].
    rewrite len_app. unfold len. simpl. lia.
  - rewrite Ex, Eq, Ew.
    split; [done|]. split; [done|]. split; [by exists []|].
    split; [by eexists|]. intros _. split; [done|]. split; [done|]. split; [done|].
    rewrite len_app. unfold len. simpl. lia.
  - destruct (events_snoc_save (trace st ++ [Extract url]) (threads st) true)
      as (-> & -> & ->).
    rewrite Ex, Eq, Ew.
    split; [done|]. split; [done|]. split; [eexists; split; [done|]; by constructor|].
    split; [by exists []|]. intros _. split; [done|]. split; [done|]. split; [done|]. lia.
  - rewrite Ex, Eq, Ew.
    split; [done|]. split; [done|]. split; [by exists []|].
    split; [by exists []|]. intros _. split; [done|]. split; [done|]. split; [done|]. lia.
Qed.

(** The same for the whole loop. *)
Lemma run_loop_effect (urls : list string) :
  forall (st : RunState) (index : Z),
  let '(st', raised) := run_loop world self st index urls in
  Spec.quits (trace st') = Spec.quits (trace st)
  /\ (exists ws, Spec.writes (trace st') = Spec.writes (trace st) ++ ws
                 /\ Forall (fun w => snd w = true
                                     /\ exists more, threads st' = fst w ++ more) ws)
  /\ (exists more, threads st' = threads st ++ more)
  /\ (raised = None ->
      Spec.extracted (trace st') = Spec.extracted (trace st) ++ urls
      /\ threads st' = threads st ++ Spec.accumulated world self urls
      /\ len (threads st') + skipped_since st'
         = len (threads st) + skipped_since st + len urls
      /\ (urls <> [] -> checkpoint_every self <> 0)
      /\ forall url, In url urls -> Spec.filter_answers world self url).
Proof.
  induction urls as [|url rest IH]; intros st index.
  - cbn [run_loop]. split; [done|]. split; [by exists []; rewrite app_nil_r|].
    split; [by exists []; rewrite app_nil_r|]. intros _.
    unfold Spec.accumulated, len. simpl. rewrite !app_nil_r.
    split; [done|]. split; [done|]. split; [lia|]. split; done.
  - cbn [run_loop].
    pose proof (run_step_effect st index url) as Hstep. cbv zeta in Hstep.
    destruct (run_step world self st index url) as [st1 [e|]].
    + destruct Hstep as (_ & Hq & (ws & Hw & Hws) & Hth & _).
      split; [done|]. split; [|split; [done|done]].
      exists ws. split; [done|].
      eapply Forall_impl; [exact Hws|]. intros w ->. split; [done|].
      exists []. by rewrite app_nil_r.
    + destruct Hstep as (Hex & Hq & (ws & Hw & Hws) & (more1 & Hth) & Hok).
      destruct (Hok eq_refl) as (Hret & Hevery & Hth1 & Hcount).
      specialize (IH st1 (index + 1)).
      destruct (run_loop world self st1 (index + 1) rest) as [st' raised].
      destruct IH as (IHq & (ws' & IHw & IHws) & (more' & IHth) & IHok).
      split; [congruence|]. split; [|split].
      * exists (ws ++ ws'). rewrite IHw, Hw, <- app_assoc. split; [done|].
        apply Forall_app. split; [|done].
        eapply Forall_impl; [exact Hws|]. intros w ->. split; [done|].
        exists more'. done.
      * exists (more1 ++ more'). by rewrite IHth, Hth, <- app_assoc.
      * intros Hnone. destruct (IHok Hnone) as (IHex & IHacc & IHcount & _ & IHans).
        split; [by rewrite IHex, Hex, <- app_assoc|].
        split.
        { rewrite IHacc, Hth1, <- app_assoc. f_equal.
          unfold Spec.accumulated. simpl.
          by destruct (Spec.kept world self (extract_thread world self url)). }
        split; [rewrite len_cons; lia|]. split; [done|].
        intros u [<-|Hu]; [by eexists|by apply IHans].
Qed.

Lemma accumulated_sublist (urls : list string) :
  List.map thread_url (Spec.accumulated world self urls) `sublist_of` urls.
Proof.
  unfold Spec.accumulated. induction urls as [|u urls IH]; simpl; [constructor|].
  destruct (Spec.kept world self (extract_thread world self u)); simpl.
  - rewrite extract_thread_url. by constructor.
  - by constructor.
Qed.

Lemma run_on_outcome (urls : list string) :
  let '(st', raised) :=
    run_loop world self {| threads := []; skipped_since := 0; trace := [] |} 1 urls in
  urls <> [] ->
  run_on world self urls
  = match raised with
    | Some e => {| events := trace st'; outcome := Raise e |}
    | None => {| events := trace st' ++ [Save (threads st') false; Quit];
                 outcome := Ok (threads st') |}
    end.
Proof.
  destruct (run_loop _ _ _ _ _) as [st' raised] eqn:E. intros Hne.
  unfold run_on. destruct urls as [|u rest]; [done|]. by rewrite E.
Qed.

(** X13: when an exception leaves [run], the browser has not been
    released and the final write has not happened: every write made so
    far is a checkpoint. *)
Theorem exception_leaves_browser_open (urls : list string) (e : exn)
  (Hraise : outcome (run_on world self urls) = Raise e) :
  Spec.quits (events (run_on world self urls)) = 0%nat
  /\ Forall (fun w => snd w = true) (Spec.writes (events (run_on world self urls))).
Proof.
  destruct urls as [|u rest]; [done|].
  pose proof (run_on_outcome (u :: rest)) as Hrun.
  pose proof (run_loop_effect (u :: rest)
                {| threads := []; skipped_since := 0; trace := [] |} 1) as Heff.
  destruct (run_loop _ _ _ _ _) as [st' [e'|]].
  - rewrite (Hrun ltac:(done)). cbn [events].
    destruct Heff as (Hq & (ws & Hw & Hws) & _).
    split; [done|]. rewrite Hw. simpl.
    eapply Forall_impl; [exact Hws|]. by intros w [? _].
  - rewrite (Hrun ltac:(done)) in Hraise. done.
Qed.

Lemma run_on_ok (urls : list string) (output : list Thread) :
  outcome (run_on world self urls) = Ok output ->
  output = Spec.accumulated world self urls
  /\ Spec.extracted (events (run_on world self urls)) = urls.
Proof.
  intros Hok.
  destruct urls as [|u rest]; [by injection Hok as <-|].
  pose proof (run_on_outcome (u :: rest)) as Hrun.
  pose proof (run_loop_effect (u :: rest)
                {| threads := []; skipped_since := 0; trace := [] |} 1) as Heff.
  destruct (run_loop _ _ _ _ _) as [st' [e'|]];
    rewrite (Hrun ltac:(done)) in Hok |- *; [done|].
  injection Hok as <-. cbn [events].
  destruct Heff as (_ & _ & _ & Hnone).
  destruct (Hnone eq_refl) as (Hex & Hacc & _).
  split; [done|]. by rewrite extracted_app, Hex, app_nil_r.
Qed.

(** X14: when [run] returns normally, every discovered URL has been
    extracted, in order, and the output is the kept records in that
    order: it holds at most one record per discovered URL, each under
    the URL it was extracted from. *)
Theorem output_follows_discovery_order (urls : list string) (output : list Thread)
  (Hok : outcome (run_on world self urls) = Ok output) :
  Spec.extracted (events (run_on world self urls)) = urls
  /\ output = Spec.accumulated world self urls
  /\ List.map thread_url output `sublist_of` urls
  /\ Forall (fun t => t = extract_thread world self (thread_url t)) output.
Proof.
  destruct (run_on_ok urls output Hok) as [-> Hex].
  split; [done|]. split; [done|]. split; [apply accumulated_sublist|].
  apply List.Forall_forall. intros t Ht.
  apply filter_In in Ht as [Ht _]. apply in_map_iff in Ht as (u & <- & _).
  by rewrite extract_thread_url.
Qed.

(** Without a since-date every record is kept. *)
Lemma no_since_retains (thread : Thread) :
  since self = None -> Spec.retain world self thread = Ok true.
Proof.
  intros H. unfold Spec.retain, _is_after_since, since_dt. rewrite H. simpl.
  by destruct (has_error thread).
Qed.

(** X15: without a [--since] date (and with a checkpoint cadence other
    than zero) a run over a non-empty list always completes and returns
    exactly one record per discovered URL, in order. *)
Theorem no_since_date_keeps_every_record (urls : list string)
  (Hsince : since self = None)
  (Hevery : checkpoint_every self <> 0)
  (Hne : urls <> []) :
  outcome (run_on world self urls) = Ok (List.map (extract_thread world self) urls)
  /\ List.map thread_url (List.map (extract_thread world self) urls) = urls.
Proof.
  split.
  - rewrite (run_on_completes world self urls Hne Hevery).
    + cbn [outcome]. f_equal. unfold Spec.accumulated.
      induction urls as [|u rest IH]; [done|]. simpl.
      unfold Spec.kept at 1. rewrite no_since_retains; [|done].
      destruct rest; [done|]. f_equal. by apply IH.
    + intros u _. exists true. by apply no_since_retains.
  - clear Hne. induction urls as [|u rest IH]; simpl; [done|].
    by rewrite extract_thread_url, IH.
Qed.

(** X16: in a run over a non-empty list that returns normally, the
    last write is the one after the loop and holds the returned output;
    every write before it is a checkpoint and holds a prefix of the
    output: the output file only ever grows. *)
Theorem writes_grow_to_the_output (urls : list string) (output : list Thread)
  (Hne : urls <> [])
  (Hok : outcome (run_on world self urls) = Ok output) :
  exists checkpoints,
    Spec.writes (events (run_on world self urls)) = checkpoints ++ [(output, false)]
    /\ Forall (fun w => snd w = true /\ fst w `prefix_of` output) checkpoints.
Proof.
  pose proof (run_on_outcome urls) as Hrun.
  pose proof (run_loop_effect urls
                {| threads := []; skipped_since := 0; trace := [] |} 1) as Heff.
  destruct (run_loop _ _ _ _ _) as [st' [e'|]];
    rewrite (Hrun Hne) in Hok |- *; [done|].
  injection Hok as <-. cbn [events].
  destruct Heff as (_ & (ws & Hw & Hws) & _).
  exists ws. rewrite writes_app, Hw. split; [done|].
  eapply Forall_impl; [exact Hws|]. intros w [Hflag [more Hmore]].
  split; [done|]. by exists more.
Qed.

(** X17: when the loop of [run] goes through the whole list, the
    records written and the records skipped by the since-date add up to
    the URLs: the three counts of the final log record agree. *)
Theorem written_and_skipped_add_up (urls : list string) (st' : RunState)
  (Hloop : run_loop world self {| threads := []; skipped_since := 0; trace := [] |} 1 urls
           = (st', None)) :
  len (threads st') + skipped_since st' = len urls
  /\ 0 <= skipped_since st' <= len urls.
Proof.
  pose proof (run_loop_effect urls
                {| threads := []; skipped_since := 0; trace := [] |} 1) as Heff.
  rewrite Hloop in Heff. destruct Heff as (_ & _ & _ & Hnone).
  destruct (Hnone eq_refl) as (_ & Hacc & Hcount & _).
  cbn [threads skipped_since] in Hcount, Hacc.
  change (len (@nil Thread)) with 0 in Hcount. simpl in Hacc.
  assert (len (threads st') <= len urls).
  { rewrite Hacc. unfold Spec.accumulated, len.
    pose proof (filter_length_le (Spec.kept world self)
                  (List.map (extract_thread world self) urls)) as Hle.
    rewrite length_map in Hle. lia. }
  unfold len in *. lia.
Qed.

(** X18: with [checkpoint_every] set to 0 a run over a non-empty
    list ends at its first URL, once the since-date test of that first
    record has answered: the thread is extracted, the modulo raises
    [ZeroDivisionError], nothing is written and the browser is not
    released. *)
Theorem zero_cadence_aborts_at_first_url (url : string) (rest : list string)
  (Hzero : checkpoint_every self = 0)
  (Hans : Spec.filter_answers world self url) :
  events (run_on world self (url :: rest)) = [Extract url]
  /\ exists e, outcome (run_on world self (url :: rest)) = Raise e
               /\ exn_class e = "ZeroDivisionError".
Proof.
  destruct Hans as [keep Hkeep]. unfold Spec.retain in Hkeep.
  unfold run_on, run_loop, run_step. cbv zeta. rewrite Hkeep.
  unfold mod_. rewrite Hzero. simpl. destruct keep; split; try done; by eexists.
Qed.

End RunInvariants.

(** ** The configuration path *)

Section ConfigPath.

Variable path_exists : string -> bool.
Variable DEFAULT_CONFIG_PATHS : list string.

Lemma first_existing_spec (candidates : list string) :
  match Setup.first_existing path_exists candidates with
  | Some p =>
      path_exists p = true
      /\ exists before after, candidates = before ++ p :: after
                              /\ Forall (fun c => path_exists c = false) before
  | None => Forall (fun c => path_exists c = false) candidates
  end.
Proof.
  induction candidates as [|c rest IH]; simpl; [constructor|].
  destruct (path_exists c) eqn:E.
  - split; [done|]. by exists [], rest.
  - destruct (Setup.first_existing path_exists rest) as [p|].
    + destruct IH as (Hp & before & after & -> & Hbefore).
      split; [done|]. exists (c :: before), after. split; [done|]. by constructor.
    + by constructor.
Qed.

(** X19: a path returned by [_resolve_config_path] exists.  A non-empty
    explicit path is the only one looked at: it is returned when it
    exists and the call raises [FileNotFoundError] when it does not,
    without falling back to the defaults.  Without one, the result is
    the first default that exists, and the call raises when none
    does. *)
Theorem resolved_config_path_exists (explicit_path : option string) :
  let explicit := match explicit_path with
                  | Some p => truthy_str p
                  | None => false
                  end in
  match Setup._resolve_config_path path_exists DEFAULT_CONFIG_PATHS explicit_path with
  | Ok p =>
      path_exists p = true
      /\ (if explicit then explicit_path = Some p
          else exists before after,
                 DEFAULT_CONFIG_PATHS = before ++ p :: after
                 /\ Forall (fun c => path_exists c = false) before)
  | Raise e =>
      exn_class e = "FileNotFoundError"
      /\ (if explicit
          then exists p, explicit_path = Some p /\ path_exists p = false
          else Forall (fun c => path_exists c = false) DEFAULT_CONFIG_PATHS)
  end.
Proof.
  unfold Setup._resolve_config_path. cbv zeta.
  pose proof (first_existing_spec DEFAULT_CONFIG_PATHS) as Hfirst.
  destruct explicit_path as [p|].
  - destruct (truthy_str p) eqn:Hp.
    + destruct (path_exists p) eqn:E; simpl; [done|]. split; [done|]. by exists p.
    + destruct (Setup.first_existing path_exists DEFAULT_CONFIG_PATHS); simpl; done.
  - destruct (Setup.first_existing path_exists DEFAULT_CONFIG_PATHS); simpl; done.
Qed.

End ConfigPath.

(** ** Discovered URLs are rooted *)

Section Rooted.

Variable world : World.
Variable self : Config.

Lemma drop_while_not_head (p : ascii -> bool) (s : string) :
  match drop_while p s with
  | EmptyString => True
  | String c _ => p c = false
  end.
Proof.
  induction s as [|c s IH]; simpl; [done|].
  destruct (p c) eqn:E; [done|]. simpl. done.
Qed.

(** X20: every URL that discovery returns is the rewrite of an href
    and passes the id test; it either starts with [http] or is the
    thread base, one slash, and a path that does not start with a
    slash. *)
Theorem discovered_urls_are_rooted
  (fuel : nat) (start : Page world) (c : Collected world)
  (Hc : collect world self fuel start = Some c) :
  Forall (fun url =>
            search_trailing_id url = true
            /\ (exists href, url = canonical self href)
            /\ (startswith url "http" = true
                \/ exists path, url = thread_base self +:+ "/" +:+ path
                                /\ startswith path "/" = false))
         (returned c).
Proof.
  unfold collect in Hc.
  apply (collect_loop_first_seen world self _ _ _ _ []) in Hc
    as (n & _ & Hfinal & Hstop); [|done|done].
  apply decide_stop_returns in Hstop as [k Hk].
  apply List.Forall_forall. intros url Hurl. rewrite Hk in Hurl.
  apply list_elem_of_In, elem_of_take in Hurl as (i & Hurl & _).
  apply list_elem_of_lookup_2, list_elem_of_In in Hurl.
  rewrite Hfinal in Hurl.
  apply first_seen_In, filter_In in Hurl as [Hurl Hid].
  apply in_map_iff in Hurl as (href & <- & _).
  split; [done|]. split; [by exists href|].
  unfold canonical. cbv zeta.
  destruct (startswith (sub_query href) "http") eqn:E; [left; exact E|].
  right. exists (lstrip_slash (sub_query href)). split; [done|].
  unfold lstrip_slash, startswith.
  pose proof (drop_while_not_head is_slash (sub_query href)) as H.
  destruct (drop_while is_slash (sub_query href)) as [|ch r]; [done|].
  change (String.prefix "/" (String ch r))
    with (if ascii_dec "/" ch then String.prefix EmptyString r else false).
  destruct (ascii_dec "/" ch) as [<-|]; [by vm_compute in H|done].
Qed.

End Rooted.

(** ** Closed instances of the properties above *)

(** A padded date parses like the bare one, and blanks parse to nothing. *)
Lemma parse_date_ignores_surrounding_space_witness :
  strip "   " = EmptyString
  /\ parse_date fixed_world (Some "   ") = None
  /\ parse_date fixed_world (Some "  2023-01-01 ") = Some (naive jan_2023).
Proof.
  split; [reflexivity|]. split.
  - destruct (parse_date_ignores_surrounding_space fixed_world "   ") as [_ H].
    apply H. reflexivity.
  - destruct (parse_date_ignores_surrounding_space fixed_world "  2023-01-01 ") as [H _].
    rewrite <- H. reflexivity.
Defined.

(** Two labels, one open and one solved in capitals: resolved. *)
Lemma resolved_label_takes_priority_witness :
  In (leaf [] [" SOLVED "])
     (select (root labelled_page) (status_label_selector default_config))
  /\ In "solved" (resolved_terms default_config)
  /\ contains (lower (get_text (leaf [] [" SOLVED "]))) (lower "solved") = true
  /\ _extract_status default_config labelled_page = "resolved".
Proof.
  assert (In (leaf [] [" SOLVED "])
            (select (root labelled_page) (status_label_selector default_config))) as H1
    by (right; left; reflexivity).
  assert (In "solved" (resolved_terms default_config)) as H2 by (left; reflexivity).
  assert (contains (lower (get_text (leaf [] [" SOLVED "]))) (lower "solved") = true) as H3
    by reflexivity.
  destruct (resolved_label_takes_priority default_config labelled_page) as [_ H].
  split; [exact H1|]. split; [exact H2|]. split; [exact H3|].
  exact (H _ _ H1 H2 H3).
Defined.

(** The author element reads Jane Community Expert: the author is Jane. *)
Lemma reply_author_loses_its_badge_witness :
  select_one badged_item (default ".author-info" (sel_reply_author default_config))
  = Some (leaf [] ["Jane Community Expert"])
  /\ In "Community Expert" badge_suffixes
  /\ r_author (reply_of fixed_world default_config badged_item) = "Jane".
Proof.
  assert (select_one badged_item (default ".author-info" (sel_reply_author default_config))
          = Some (leaf [] ["Jane Community Expert"])) as Hel by reflexivity.
  assert (In "Community Expert" badge_suffixes) as Hin
    by (right; right; right; left; reflexivity).
  destruct (reply_author_loses_its_badge fixed_world default_config badged_item _ Hel)
    as [H _].
  split; [exact Hel|]. split; [exact Hin|].
  exact (H "Jane " "Community Expert" eq_refl Hin).
Defined.

(** With [--test 2] the fixed listing gives two URLs, for the test limit. *)
Lemma test_limit_caps_discovery_witness :
  let self := ex_config 3 50 (Some 2) None None in
  test_limit self = Some 2
  /\ exists c, collect fixed_world self 1 0%nat = Some c
               /\ len (returned c) <= 2
               /\ reason c = TestLimit.
Proof.
  intros self. split; [reflexivity|].
  destruct (collect fixed_world self 1 0%nat) as [c|] eqn:Hc;
    [|vm_compute in Hc; discriminate].
  destruct (test_limit_caps_discovery fixed_world self 1 0%nat c 2 Hc eq_refl)
    as [Hle _]; [lia|].
  exists c. split; [done|]. split; [exact Hle|].
  vm_compute in Hc. injection Hc as <-. reflexivity.
Defined.

(** With [--max-pages 1] the fixed listing is scanned twice, with one click. *)
Lemma page_limit_bounds_discovery_witness :
  let self := ex_config 3 50 None (Some 1) None in
  max_pages self = Some 1
  /\ exists c, collect fixed_world self 2 0%nat = Some c
               /\ 0 <= click_count (final c) <= 1
               /\ reason c = MaxPages.
Proof.
  intros self. split; [reflexivity|].
  destruct (page_limit_bounds_discovery fixed_world self 0%nat 1 eq_refl) as [Hclicks Hhalt];
    [lia|].
  destruct (Hhalt 2%nat) as [c Hc]; [vm_compute; lia|].
  exists c. split; [done|]. split; [by apply (Hclicks 2%nat)|].
  vm_compute in Hc. injection Hc as <-. reflexivity.
Defined.

(** The fixed listing with the default threshold: four records, two new URLs. *)
Lemma discovery_log_adds_up_witness :
  exists c, collect fixed_world default_config 4 0%nat = Some c
            /\ List.length (rounds c) = 4%nat
            /\ Spec.total_new (rounds c) = len (urls (final c))
            /\ len (urls (final c)) = 2.
Proof.
  destruct (collect fixed_world default_config 4 0%nat) as [c|] eqn:Hc;
    [|vm_compute in Hc; discriminate].
  destruct (discovery_log_adds_up fixed_world default_config 4 0%nat c Hc) as (_ & Hsum & _).
  exists c. split; [done|].
  split; [vm_compute in Hc; injection Hc as <-; reflexivity|].
  split; [exact Hsum|].
  vm_compute in Hc. injection Hc as <-. reflexivity.
Defined.

(** The growing listing: three URLs, all under the thread base. *)
Lemma discovered_urls_are_rooted_witness :
  exists c, collect growing_world default_config 5 0%nat = Some c
            /\ returned c = [u_export; u_import; u_colors]
            /\ Forall (fun url => search_trailing_id url = true) (returned c).
Proof.
  destruct (collect growing_world default_config 5 0%nat) as [c|] eqn:Hc;
    [|vm_compute in Hc; discriminate].
  pose proof (discovered_urls_are_rooted growing_world default_config 5 0%nat c Hc) as H.
  exists c. split; [done|].
  split; [vm_compute in Hc; injection Hc as <-; reflexivity|].
  eapply Forall_impl; [exact H|]. by intros url [? _].
Defined.

(** The run with a timezone-aware since-date: it raises, with no quit. *)
Lemma exception_leaves_browser_open_witness :
  let self := ex_config 3 50 None None (Some "2023-06-01T00:00:00Z") in
  exists e, outcome (run_on fixed_world self [u_export; u_colors]) = Raise e
            /\ Spec.quits (events (run_on fixed_world self [u_export; u_colors])) = 0%nat.
Proof.
  intros self.
  destruct (outcome (run_on fixed_world self [u_export; u_colors])) as [out|e] eqn:Hout;
    [vm_compute in Hout; discriminate|].
  exists e. split; [done|].
  by destruct (exception_leaves_browser_open fixed_world self _ e Hout).
Defined.

(** Three URLs with [--since 2023-06-01]: the first thread is dropped,
    the records of the other two follow the discovery order. *)
Lemma output_follows_discovery_order_witness :
  let self := ex_config 3 50 None None (Some "2023-06-01") in
  let urls := [u_export; u_import; u_colors] in
  exists output, outcome (run_on fixed_world self urls) = Ok output
                 /\ List.map thread_url output = [u_import; u_colors]
                 /\ List.map thread_url output `sublist_of` urls.
Proof.
  intros self urls.
  destruct (outcome (run_on fixed_world self urls)) as [output|e] eqn:Hout;
    [|vm_compute in Hout; discriminate].
  destruct (output_follows_discovery_order fixed_world self urls output Hout)
    as (_ & _ & Hsub & _).
  exists output. split; [done|]. split; [|exact Hsub].
  vm_compute in Hout. injection Hout as <-. reflexivity.
Defined.

(** Without a since-date two URLs give two records. *)
Lemma no_since_date_keeps_every_record_witness :
  since default_config = None
  /\ checkpoint_every default_config <> 0
  /\ List.map thread_url
       (match outcome (run_on fixed_world default_config [u_export; u_import]) with
        | Ok output => output
        | Raise _ => []
        end)
     = [u_export; u_import].
Proof.
  assert (checkpoint_every default_config <> 0) as Hevery by done.
  destruct (no_since_date_keeps_every_record fixed_world default_config
              [u_export; u_import] eq_refl Hevery) as [-> Hurls]; [done|].
  split; [done|]. split; [done|]. exact Hurls.
Defined.

(** Five URLs with a checkpoint every two: two checkpoints, then the output. *)
Lemma writes_grow_to_the_output_witness :
  let self := ex_config 3 2 None None None in
  let urls := [u_export; u_import; u_colors; u_undated; u_fonts] in
  exists output checkpoints,
    outcome (run_on fixed_world self urls) = Ok output
    /\ Spec.writes (events (run_on fixed_world self urls)) = checkpoints ++ [(output, false)]
    /\ Forall (fun w => fst w `prefix_of` output) checkpoints.
Proof.
  intros self urls.
  destruct (outcome (run_on fixed_world self urls)) as [output|e] eqn:Hout;
    [|vm_compute in Hout; discriminate].
  destruct (writes_grow_to_the_output fixed_world self urls output) as (cps & Hw & Hcps);
    [done|exact Hout|].
  exists output, cps. split; [done|]. split; [exact Hw|].
  eapply Forall_impl; [exact Hcps|]. by intros w [_ ?].
Defined.

(** Three URLs with [--since 2023-06-01]: two written, one skipped. *)
Lemma written_and_skipped_add_up_witness :
  let self := ex_config 3 50 None None (Some "2023-06-01") in
  exists st',
    run_loop fixed_world self {| threads := []; skipped_since := 0; trace := [] |} 1
      [u_export; u_import; u_colors] = (st', None)
    /\ len (threads st') + skipped_since st' = 3
    /\ skipped_since st' = 1.
Proof.
  intros self.
  destruct (run_loop fixed_world self {| threads := []; skipped_since := 0; trace := [] |} 1
              [u_export; u_import; u_colors]) as [st' raised] eqn:Hloop.
  assert (raised = None) as -> by (vm_compute in Hloop; by injection Hloop as _ <-).
  destruct (written_and_skipped_add_up fixed_world self _ st' Hloop) as [Hsum _].
  exists st'. split; [done|]. split; [exact Hsum|].
  vm_compute in Hloop. injection Hloop as <-. reflexivity.
Defined.

(** A cadence of zero: the run ends after the first extraction. *)
Lemma zero_cadence_aborts_at_first_url_witness :
  let self := ex_config 3 0 None None None in
  checkpoint_every self = 0
  /\ Spec.filter_answers fixed_world self u_export
  /\ events (run_on fixed_world self [u_export; u_import]) = [Extract u_export].
Proof.
  intros self.
  assert (Spec.filter_answers fixed_world self u_export) as Hans
    by (eexists; vm_compute; reflexivity).
  split; [done|]. split; [exact Hans|].
  by destruct (zero_cadence_aborts_at_first_url fixed_world self u_export [u_import]
                 eq_refl Hans) as [-> _].
Defined.

(** ** Discovery and run together *)

Section WholeRun.

Variable world : World.
Variable self : Config.

Lemma returned_NoDup (fuel : nat) (start : Page world) (c : Collected world) :
  collect world self fuel start = Some c -> NoDup (returned c).
Proof.
  unfold collect. intros Hc.
  apply (collect_loop_first_seen world self _ _ _ _ []) in Hc
    as (n & _ & Hfinal & Hstop); [|done|done].
  apply decide_stop_returns in Hstop as [k ->]. rewrite Hfinal.
  eapply sublist_NoDup; [apply NoDup_ListNoDup, first_seen_NoDup|apply sublist_take].
Qed.

Lemma accumulated_length (urls : list string) :
  len (Spec.accumulated world self urls) <= len urls.
Proof.
  unfold Spec.accumulated, len.
  pose proof (filter_length_le (Spec.kept world self)
                (List.map (extract_thread world self) urls)) as H.
  rewrite length_map in H. lia.
Qed.

(** X21: when a whole call of [run] returns normally, no URL has been
    extracted twice and the output holds at most one record for any
    URL; with a test limit set (positive) the output holds no more
    records than the limit. *)
Theorem run_output_is_distinct_and_capped
  (fuel : nat) (start : Page world) (o : Outcome) (output : list Thread)
  (Hrun : run world self fuel start = Some o)
  (Hok : outcome o = Ok output) :
  List.NoDup (Spec.extracted (events o))
  /\ List.NoDup (List.map thread_url output)
  /\ forall n, test_limit self = Some n -> 0 < n -> len output <= n.
Proof.
  unfold run, collect_question_urls in Hrun.
  destruct (collect world self fuel start) as [c|] eqn:Hc; [|done].
  simpl in Hrun. injection Hrun as <-.
  destruct (run_on_ok world self (returned c) output Hok) as [-> ->].
  pose proof (returned_NoDup fuel start c Hc) as Hnodup.
  split; [by apply NoDup_ListNoDup|]. split.
  - apply NoDup_ListNoDup.
    eapply sublist_NoDup; [exact Hnodup|apply accumulated_sublist].
  - intros n Hn Hpos.
    destruct (returned_under_test_limit world self fuel start c n Hc Hn Hpos) as [Hle _].
    pose proof (accumulated_length (returned c)). lia.
Qed.

End WholeRun.

(** The whole run on the growing listing with [--test 2]: two records. *)
Lemma run_output_is_distinct_and_capped_witness :
  let self := ex_config 3 50 (Some 2) None None in
  exists o output,
    run growing_world self 3 0%nat = Some o
    /\ outcome o = Ok output
    /\ List.map thread_url output = [u_export; u_import]
    /\ List.NoDup (List.map thread_url output)
    /\ len output <= 2.
Proof.
  intros self.
  destruct (run growing_world self 3 0%nat) as [o|] eqn:Hrun;
    [|vm_compute in Hrun; discriminate].
  destruct (outcome o) as [output|e] eqn:Hok;
    [|vm_compute in Hrun; injection Hrun as <-; vm_compute in Hok; discriminate].
  destruct (run_output_is_distinct_and_capped growing_world self 3 0%nat o output Hrun Hok)
    as (_ & Hnodup & Hcap).
  exists o, output. split; [done|]. split; [done|].
  split; [vm_compute in Hrun; injection Hrun as <-; vm_compute in Hok;
          injection Hok as <-; reflexivity|].
  split; [exact Hnodup|]. apply Hcap; [reflexivity|lia].
Defined.

(** ** The checkpointed run over dates without offsets *)

Section CheckpointedRun.

Variable world : World.
Variable self : Config.

(** C5: over a non-empty list of URLs, with a checkpoint cadence other
    than zero, a since-date without UTC offset (or none) and a library
    whose printed dates never read back with an offset, the run
    completes; after the [k]-th URL (counting from 1) the output file
    is written exactly when [k] is a multiple of [checkpoint_every], it
    is written once more after the loop, and every write holds all the
    records accumulated so far. *)
Theorem checkpoint_cadence (urls : list string)
  (Hne : urls <> [])
  (Hevery : checkpoint_every self <> 0)
  (Hsince : forall s, since_dt world self = Some s -> utcoffset s = None)
  (Hprinted : forall d p, parse_date world (Some (lib_strftime world d)) = Some p ->
                          utcoffset p = None) :
  exists due : nat -> bool,
    (forall k : nat, due k = true <-> (checkpoint_every self | Z.of_nat k))
    /\ events (run_on world self urls) = Spec.expected_events world self due urls
    /\ Spec.writes (events (run_on world self urls))
       = omap (fun k => if due k
                        then Some (Spec.accumulated world self (take k urls), true)
                        else None)
              (seq 1 (List.length urls))
         ++ [(Spec.accumulated world self urls, false)]
    /\ outcome (run_on world self urls) = Ok (Spec.accumulated world self urls).
Proof.
  assert (forall url, In url urls -> Spec.filter_answers world self url) as Hans
    by (intros url _; by apply naive_dates_answer).
  exists (fun k : nat => Z.of_nat k mod checkpoint_every self =? 0).
  rewrite (run_on_completes world self urls Hne Hevery Hans). cbn [events outcome].
  split; [|split; [done|split; [|done]]].
  - intros k. by apply mod_test.
  - apply expected_events_summary.
Qed.

(** C7: when the extraction of a URL of the list raises, the record is
    the dictionary with the keys [url], [error] and [scraped_at] only,
    and the since-date filter keeps it whatever the since-date.  With a
    checkpoint cadence other than zero, a since-date without UTC offset
    (or none) and a library whose printed dates never read back with an
    offset, the run goes on: it extracts every URL of the list in
    order, returns normally, and the error record is in its output and
    in the last write. *)
Theorem extraction_failure_is_recorded (urls : list string) (url : string) (err : exn)
  (Hin : In url urls)
  (Hraise : open_thread world url = Raise err) :
  let record := extract_thread world self url in
  record = Failed url (exn_message err) (lib_strftime world (now world url))
  /\ keys record = ["url"; "error"; "scraped_at"]
  /\ Spec.retain world self record = Ok true
  /\ (checkpoint_every self <> 0 ->
      (forall s, since_dt world self = Some s -> utcoffset s = None) ->
      (forall d p, parse_date world (Some (lib_strftime world d)) = Some p ->
                   utcoffset p = None) ->
      Spec.extracted (events (run_on world self urls)) = urls
      /\ exists output, outcome (run_on world self urls) = Ok output
                        /\ In record output
                        /\ last (List.map fst (Spec.writes (events (run_on world self urls))))
                           = Some output).
Proof.
  intros record.
  assert (record = Failed url (exn_message err) (lib_strftime world (now world url))) as Hrec
    by (unfold record, extract_thread; by rewrite Hraise).
  split; [done|]. split; [by rewrite Hrec|].
  split; [rewrite Hrec; apply failed_is_retained|].
  intros Hevery Hsince Hprinted.
  assert (urls <> []) as Hne by (by destruct urls).
  assert (forall u, In u urls -> Spec.filter_answers world self u) as Hans
    by (intros u _; by apply naive_dates_answer).
  rewrite (run_on_completes world self urls Hne Hevery Hans). cbn [events outcome].
  destruct (expected_events_summary world self
              (fun k : nat => Z.of_nat k mod checkpoint_every self =? 0) urls)
    as (Hex & Hwr & _ & _).
  split; [done|].
  exists (Spec.accumulated world self urls). split; [done|]. split.
  - unfold Spec.accumulated. apply filter_In. split.
    + apply in_map_iff. by exists url.
    + unfold Spec.kept. fold record. by rewrite Hrec, failed_is_retained.
  - rewrite Hwr, List.map_app, last_app. done.
Qed.

End CheckpointedRun.

(** The example library prints four texts; three read back as naive
    dates and the fourth does not read back. *)
Lemma fixed_world_prints_naive (d p : datetime) :
  parse_date fixed_world (Some (lib_strftime fixed_world d)) = Some p -> utcoffset p = None.
Proof.
  change (lib_strftime fixed_world d) with (ex_strftime d). unfold ex_strftime.
  destruct (wall d =? jan_2023); [|destruct (wall d =? jun_2023); [|destruct (wall d =? jan_2024)]];
    vm_compute; intros H; by inversion H.
Qed.

(** Five URLs with a checkpoint every two: writes after the second and
    the fourth URL and a last one after the loop, of two, four and five
    records. *)
Lemma checkpoint_cadence_witness :
  let self := ex_config 3 2 None None None in
  let urls := [u_export; u_import; u_colors; u_undated; u_fonts] in
  urls <> []
  /\ checkpoint_every self <> 0
  /\ (forall s, since_dt fixed_world self = Some s -> utcoffset s = None)
  /\ (forall d p, parse_date fixed_world (Some (lib_strftime fixed_world d)) = Some p ->
                  utcoffset p = None)
  /\ (exists due, events (run_on fixed_world self urls)
                  = Spec.expected_events fixed_world self due urls)
  /\ List.map (fun w => (List.length (fst w), snd w))
              (Spec.writes (events (run_on fixed_world self urls)))
     = [(2%nat, true); (4%nat, true); (5%nat, false)].
Proof.
  intros self urls.
  assert (urls <> []) as Hne by done.
  assert (checkpoint_every self <> 0) as Hevery by done.
  assert (forall s, since_dt fixed_world self = Some s -> utcoffset s = None) as Hsince
    by (intros s H; vm_compute in H; discriminate).
  destruct (checkpoint_cadence fixed_world self urls Hne Hevery Hsince fixed_world_prints_naive)
    as (due & _ & Hev & _ & _).
  split; [done|]. split; [done|]. split; [done|].
  split; [exact fixed_world_prints_naive|]. split; [by exists due|].
  vm_compute. reflexivity.
Defined.

(** Three URLs of which the second fails to load, with
    [--since 2023-06-01]: all three are extracted and the output holds
    the error record and the thread of 2024. *)
Lemma extraction_failure_is_recorded_witness :
  let self := ex_config 3 50 None None (Some "2023-06-01") in
  let urls := [u_export; u_import; u_colors] in
  In u_import urls
  /\ open_thread fixed_world u_import = Raise (Exn "TimeoutException" "page load timed out")
  /\ checkpoint_every self <> 0
  /\ (forall s, since_dt fixed_world self = Some s -> utcoffset s = None)
  /\ (forall d p, parse_date fixed_world (Some (lib_strftime fixed_world d)) = Some p ->
                  utcoffset p = None)
  /\ Spec.extracted (events (run_on fixed_world self urls)) = urls
  /\ exists output, outcome (run_on fixed_world self urls) = Ok output
       /\ In (Failed u_import "page load timed out" "2025-01-01 00:00:00") output
       /\ List.map thread_url output = [u_import; u_colors].
Proof.
  intros self urls.
  assert (In u_import urls) as Hin by (right; by left).
  assert (checkpoint_every self <> 0) as Hevery by done.
  assert (forall s, since_dt fixed_world self = Some s -> utcoffset s = None) as Hsince
    by (intros s H; vm_compute in H; by inversion H).
  destruct (extraction_failure_is_recorded fixed_world self urls u_import _ Hin eq_refl)
    as (Hrec & _ & _ & Hrun).
  destruct (Hrun Hevery Hsince fixed_world_prints_naive) as (Hex & output & Hout & Hrecin & _).
  split; [done|]. split; [done|]. split; [done|]. split; [done|].
  split; [exact fixed_world_prints_naive|]. split; [done|].
  exists output. split; [done|]. split.
  - rewrite Hrec in Hrecin. exact Hrecin.
  - vm_compute in Hout. injection Hout as <-. reflexivity.
Defined.

(** C5 as stated fails, for every run is not covered: with a checkpoint
    every two and [--since 2023-06-01T00:00:00Z], the second of four
    URLs is a thread dated 2024, the comparison of its date with the
    since-date raises before the checkpoint, and the run ends with no
    write at all, neither after the second URL nor at the end; and with
    a cadence of zero the modulo raises at the first URL. *)
Lemma interrupted_run_writes_nothing :
  let failure := Exn "TypeError" "can't compare offset-naive and offset-aware datetimes" in
  let aware_since := ex_config 3 2 None None (Some "2023-06-01T00:00:00Z") in
  let zero_cadence := ex_config 3 0 None None None in
  let urls := [u_import; u_colors; u_export; u_fonts] in
  (Spec.extracted (events (run_on fixed_world aware_since urls)) = [u_import; u_colors]
   /\ Spec.writes (events (run_on fixed_world aware_since urls)) = []
   /\ outcome (run_on fixed_world aware_since urls) = Raise failure)
  /\ (Spec.extracted (events (run_on fixed_world zero_cadence urls)) = [u_import]
      /\ Spec.writes (events (run_on fixed_world zero_cadence urls)) = []
      /\ outcome (run_on fixed_world zero_cadence urls)
         = Raise (Exn "ZeroDivisionError" "integer modulo by zero")).
Proof. repeat split; vm_compute; reflexivity. Qed.

(** C7 as stated fails, for the URLs after a failed extraction are not
    always processed: with [--since 2023-06-01T00:00:00Z] the first URL
    fails to load and its error record is kept, the second is a thread
    dated 2024 on which the since-date comparison raises, and the third
    URL is never extracted; with a cadence of zero the run ends right
    after the error record of the first URL is kept. *)
Lemma urls_after_a_failure_are_dropped :
  let failure := Exn "TypeError" "can't compare offset-naive and offset-aware datetimes" in
  let aware_since := ex_config 3 50 None None (Some "2023-06-01T00:00:00Z") in
  let zero_cadence := ex_config 3 0 None None (Some "2023-06-01") in
  let urls := [u_import; u_colors; u_undated] in
  open_thread fixed_world u_import = Raise (Exn "TimeoutException" "page load timed out")
  /\ (Spec.extracted (events (run_on fixed_world aware_since urls)) = [u_import; u_colors]
      /\ outcome (run_on fixed_world aware_since urls) = Raise failure)
  /\ (Spec.extracted (events (run_on fixed_world zero_cadence urls)) = [u_import]
      /\ outcome (run_on fixed_world zero_cadence urls)
         = Raise (Exn "ZeroDivisionError" "integer modulo by zero")).
Proof. repeat split; vm_compute; reflexivity. Qed.
